(** * warc: capture transport, record builder and rotating record writer

    A shallow embedding of [transport.go] (the capturing HTTP client) and of
    the recorder / rotator file (the record builder and [recordWriter]),
    together with the properties of the capture-to-disk pipeline.

    Go values are modelled as follows: [[]byte] is [list Byte.byte], [string]
    is [string], [int] is [Z] with the 64-bit wrap-around written out, a
    [(value, error)] pair is a sum or a pair of options, and a panic is the
    [Panic] outcome of the small state monad each module defines. *)

From Stdlib Require Import ZArith QArith List String Ascii Lia Bool.
From Stdlib Require Import Init.Byte Strings.Byte.
From stdpp Require Import base option list strings gmap pretty.

Local Open Scope string_scope.
Local Open Scope list_scope.

Abbreviation bytes := (list Byte.byte).
Abbreviation error := string.

(** Outcome of running a Go function body: it returns, or it panics. *)
Inductive go (A : Type) : Type :=
| Ret (a : A)
| Panic (msg : string).
Arguments Ret {A} a.
Arguments Panic {A} msg.

Definition returned {A} (r : go A) : bool :=
  match r with Ret _ => true | Panic _ => false end.

(** A Go function body over a mutable state [S]: state passing, with the
    panic ending the run in the state it was raised in. *)
Definition GoM (S A : Type) : Type := S -> go A * S.

Definition ret {S A} (a : A) : GoM S A := fun st => (Ret a, st).
Definition panic {S A} (msg : string) : GoM S A := fun st => (Panic msg, st).
Definition bind {S A B} (m : GoM S A) (k : A -> GoM S B) : GoM S B :=
  fun st => match m st with
            | (Ret a, st') => k a st'
            | (Panic msg, st') => (Panic msg, st')
            end.
Definition get {S} : GoM S S := fun st => (Ret st, st).

Declare Scope go_scope.
Delimit Scope go_scope with go.
Notation "x <- m ;; k" := (bind m (fun x => k))
  (at level 100, m at next level, right associativity) : go_scope.
Notation "m ;;; k" := (bind m (fun _ => k))
  (at level 100, right associativity) : go_scope.
Local Open Scope go_scope.

(** [for _, x := range l { body }] threading the loop-carried variables. *)
Fixpoint forRange {S A V} (body : V -> A -> GoM S V) (l : list A) (v : V)
  : GoM S V :=
  match l with
  | [] => ret v
  | x :: l' => v' <- body v x ;; forRange body l' v'
  end.

(** [hoare P m Q R]: run from a state in [P], [m] returns a value and a state
    in [Q], or panics in a state in [R]. *)
Definition hoare {S A} (P : S -> Prop) (m : GoM S A) (Q : A -> S -> Prop)
    (R : S -> Prop) : Prop :=
  forall st, P st ->
    match m st with
    | (Ret a, st') => Q a st'
    | (Panic _, st') => R st'
    end.

(** ** transport.go *)
Module Transport.

(** An underlying [net.Conn], identified by the address it is connected to. *)
Record Conn := mkConn { connId : nat; RemoteAddr : string }.

(** [http.Response] and [http.Request], reduced to the fields the client's
    redirect loop and the capture callback look at.  [redirect] is the
    decision of [net/http]'s [redirectBehavior] together with the [Location]
    header: [Some loc] when the client follows the response to [loc]. *)
Record Response := mkResponse {
  StatusCode : Z;
  redirect : option string
}.

Record Request := mkRequest {
  URL : string;
  Response_ : option Response   (* req.Response: the response that caused this request *)
}.

(** type connWrapper struct { c net.Conn; resp, req *bytes.Buffer } *)
Record connWrapper := mkConnWrapper {
  c : option Conn;
  resp : bytes;
  req : bytes
}.

(** One invocation of the [Callback]: its four arguments. *)
Record CallbackArgs := mkCall {
  cbReq : Request;
  cbResp : option Response;
  cbReqData : bytes;
  cbRespData : bytes
}.

(** What happens on the network and on the wrapper, in program order. *)
Inductive netEvent :=
| EvDial (addr : string)          (* dT.DialContext *)
| EvTlsDial (addr : string)       (* tls.Dial, which performs the handshake *)
| EvHandshake                     (* dial.Handshake() *)
| EvAttach (conn : Conn)          (* cW.c = conn *)
| EvClose (conn : Conn).          (* the wrapped connection is closed *)

(** The state the closures of [foo] share: the one [connWrapper] allocated
    at line 68, the invocations of the callback, and the event log. *)
Record state := mkState {
  cW : connWrapper;
  calls : list CallbackArgs;
  net : list netEvent
}.

Abbreviation M := (GoM state).

Definition emit (e : netEvent) : M unit :=
  fun st => (Ret tt, mkState (cW st) (calls st) (net st ++ [e])).
Definition setCW (w : connWrapper) : M unit :=
  fun st => (Ret tt, mkState w (calls st) (net st)).

(** *** connWrapper methods (lines 26-42) *)

(** [Read]: the underlying connection delivers [b]; those bytes are appended
    to the response buffer. *)
Definition Read (b : bytes) : M unit :=
  st <- get ;;
  setCW (mkConnWrapper (c (cW st)) (resp (cW st) ++ b) (req (cW st))).

(** [Write]: [b] is appended to the request buffer, then forwarded. *)
Definition Write (b : bytes) : M unit :=
  st <- get ;;
  setCW (mkConnWrapper (c (cW st)) (resp (cW st)) (req (cW st) ++ b)).

(** [Close] forwards to the underlying connection; the field [c] is left
    as it is. *)
Definition Close : M unit :=
  st <- get ;;
  match c (cW st) with
  | Some conn => emit (EvClose conn)
  | None => panic "nil pointer dereference"
  end.

(** *** foo (lines 64-126) *)

(** Line 68: the wrapper is allocated once, when the client is built. *)
Definition foo_state : state :=
  mkState (mkConnWrapper None [] []) [] [].

(** The environment of one dial: what the underlying dial function does. *)
Inductive dialKind := Plain | TLS.
Record dialEnv := mkDialEnv {
  kind : dialKind;
  addr : string;
  dialRes : error + Conn;        (* result of dT.DialContext or tls.Dial *)
  handshakeRes : option error    (* result of dial.Handshake() *)
}.

(** [dT.DialContext]. *)
Definition plainDial (d : dialEnv) : M (error + Conn) :=
  emit (EvDial (addr d)) ;;; ret (dialRes d).

(** The function literal of lines 110-120: [tls.Dial], then
    [return dial, dial.Handshake()]. *)
Definition tlsDial (d : dialEnv) : M (error + Conn) :=
  emit (EvTlsDial (addr d)) ;;;
  match dialRes d with
  | inl e => ret (inl e)
  | inr conn =>
      emit EvHandshake ;;;
      match handshakeRes d with
      | Some e => ret (inl e)
      | None => ret (inr conn)
      end
  end.

(** The pointer a wrapped dial returns: always [cW] (line 86). *)
Inductive wrapped := TheConnWrapper.

(** [wrap] (lines 73-88). *)
Definition wrap (df : dialEnv -> M (error + Conn)) (d : dialEnv)
  : M (error + wrapped) :=
  r <- df d ;;
  match r with
  | inl e => ret (inl e)
  | inr conn =>
      st <- get ;;
      match c (cW st) with
      | Some _ => panic "connWrapper already contains a connection"
      | None =>
          setCW (mkConnWrapper (Some conn) (resp (cW st)) (req (cW st))) ;;;
          emit (EvAttach conn) ;;;
          ret (inr TheConnWrapper)
      end
  end.

Definition DialContext := wrap plainDial.
Definition DialTLSContext := wrap tlsDial.

Definition dial (d : dialEnv) : M (error + wrapped) :=
  match kind d with
  | Plain => DialContext d
  | TLS => DialTLSContext d
  end.

(** [triggerCallback] (lines 90-94). *)
Definition triggerCallback (rq : Request) (rs : option Response) : M unit :=
  fun st =>
    (Ret tt,
     mkState (mkConnWrapper (c (cW st)) [] [])
             (calls st ++ [mkCall rq rs (req (cW st)) (resp (cW st))])
             (net st)).

(** [checkRedirect] (lines 97-104). *)
Definition checkRedirect (rq : Request) (via : list Request) : M (option error) :=
  triggerCallback rq (Response_ rq) ;;;
  if (10 <=? Z.of_nat (length via))%Z
  then ret (Some "stopped after 10 redirects")
  else ret None.

(** *** The library side: [http.Transport] and [http.Client.Do]

    The environment of the [i]-th request sent by one call of [Do]. *)
Record exchange := mkExchange {
  idle : bool;            (* the pool holds an idle connection to reuse *)
  dialing : dialEnv;      (* what a dial does, if one is made *)
  wireReq : bytes;        (* bytes written on the connection *)
  wireResp : bytes;       (* bytes read from the connection *)
  answer : error + Response
}.

Definition server := nat -> Request -> exchange.

(** [http.Transport.RoundTrip] as this client sees it: reuse the idle
    connection or dial through the installed dial function, write the
    request and read the response through the connection obtained. *)
Definition send (ex : exchange) : M (error + Response) :=
  st <- get ;;
  r <- (if idle ex && bool_decide (is_Some (c (cW st)))
        then ret (inr TheConnWrapper)
        else dial (dialing ex)) ;;
  match r with
  | inl e => ret (inl e)
  | inr TheConnWrapper =>
      Write (wireReq ex) ;;; Read (wireResp ex) ;;; ret (answer ex)
  end.

(** The loop of [http.Client.do]: before every request but the first the
    redirect hook is consulted with the upcoming request and the requests
    made so far; its error ends the loop with the last response. *)
Fixpoint do_loop (srv : server) (fuel : nat) (reqs : list Request)
    (rq : Request) : M (option Response * option error) :=
  match fuel with
  | O => panic "out of fuel"
  | S fuel' =>
      r <- send (srv (length reqs) rq) ;;
      match r with
      | inl e => ret (None, Some e)
      | inr rs =>
          match redirect rs with
          | None => ret (Some rs, None)
          | Some loc =>
              let reqs' := reqs ++ [rq] in
              let next := mkRequest loc (Some rs) in
              err <- checkRedirect next reqs' ;;
              match err with
              | Some e => ret (Some rs, Some e)
              | None => do_loop srv fuel' reqs' next
              end
          end
      end
  end.

(** The hook stops every chain at its tenth redirect, so twelve rounds of
    the loop are always enough. *)
Definition Do (srv : server) (rq : Request) : M (option Response * option error) :=
  do_loop srv 12 [] rq.

(** [roundTripper.RoundTrip] (lines 134-143). *)
Definition RoundTrip (srv : server) (rq : Request)
  : M (option Response * option error) :=
  r <- Do srv rq ;;
  match r with
  | (_, Some e) => ret (None, Some e)
  | (rs, None) => ret (rs, None)
  end.

(** *** Vocabulary of the properties *)

(** What the dial function handed to [wrap] returns, and the calls it makes. *)
Definition underlying (d : dialEnv) : error + Conn :=
  match kind d, dialRes d, handshakeRes d with
  | TLS, inr _, Some e => inl e
  | _, r, _ => r
  end.

Definition underlyingEvents (d : dialEnv) : list netEvent :=
  match kind d, dialRes d with
  | Plain, _ => [EvDial (addr d)]
  | TLS, inl _ => [EvTlsDial (addr d)]
  | TLS, inr _ => [EvTlsDial (addr d); EvHandshake]
  end.

Definition addNet (st : state) (evs : list netEvent) : state :=
  mkState (cW st) (calls st) (net st ++ evs).

(** What a program can do with the client, one step at a time. *)
Inductive op :=
| OpDial (d : dialEnv)
| OpClose
| OpWrite (b : bytes)
| OpRead (b : bytes)
| OpCheckRedirect (rq : Request) (via : list Request)
| OpRoundTrip (srv : server) (rq : Request).

Definition runOp (o : op) (st : state) : state :=
  match o with
  | OpDial d => snd (dial d st)
  | OpClose => snd (Close st)
  | OpWrite b => snd (Write b st)
  | OpRead b => snd (Read b st)
  | OpCheckRedirect rq via => snd (checkRedirect rq via st)
  | OpRoundTrip srv rq => snd (RoundTrip srv rq st)
  end.

Definition runOps (ops : list op) (st : state) : state :=
  fold_left (fun st o => runOp o st) ops st.

Definition isAttach (e : netEvent) : bool :=
  match e with EvAttach _ => true | _ => false end.

(** How many times a connection was put into the wrapper. *)
Definition attaches (st : state) : nat := length (filter isAttach (net st)).

(** The only way the attached connection changes between two states: an
    empty wrapper receives a connection, once. *)
Definition evolves (st st' : state) : Prop :=
  (c (cW st') = c (cW st) /\ attaches st' = attaches st) \/
  (c (cW st) = None /\ is_Some (c (cW st')) /\ attaches st' = S (attaches st)).

(** The requests of one call that starts with [rq], hop by hop, as the loop
    of the client builds them: a redirect answer to the request of hop [j]
    makes the request of hop [j+1], to the location the answer names and
    with the answer as its [Response] field. *)
Fixpoint hopRequest (srv : server) (rq : Request) (i : nat) : Request :=
  match i with
  | O => rq
  | S j =>
      let prev := hopRequest srv rq j in
      match answer (srv j prev) with
      | inr rs =>
          match redirect rs with
          | Some loc => mkRequest loc (Some rs)
          | None => prev
          end
      | inl _ => prev
      end
  end.

(** What the server and the network do with the request of hop [i]. *)
Definition hopExchange (srv : server) (rq : Request) (i : nat) : exchange :=
  srv i (hopRequest srv rq i).

(** The answer is a response the client follows. *)
Definition isRedirect (a : error + Response) : bool :=
  match a with
  | inr rs => match redirect rs with Some _ => true | None => false end
  | inl _ => false
  end.

(** The wrapper of the client holds a connection. *)
Definition attached (st : state) : bool :=
  match c (cW st) with Some _ => true | None => false end.

(** The request travels on the one connection of the client: a client that
    holds a connection is handed it idle by the pool; a client that holds
    none dials, and the underlying dial succeeds. *)
Definition connects (holdsOne : bool) (ex : exchange) : bool :=
  if holdsOne then idle ex
  else match underlying (dialing ex) with inr _ => true | inl _ => false end.

(** Hop [i] of the call that starts in [st] travels on the one connection;
    after the first hop the client holds it. *)
Definition hopConnects (srv : server) (rq : Request) (st : state) (i : nat)
  : bool :=
  connects (if Nat.eqb i 0 then attached st else true) (hopExchange srv rq i).

(** The first [n] requests of the call are answered with a redirect, each
    on the one connection of the client. *)
Definition redirectsFor (srv : server) (rq : Request) (st : state) (n : nat)
  : bool :=
  forallb (fun i => isRedirect (answer (hopExchange srv rq i))
                    && hopConnects srv rq st i)
          (seq 0 n).

(** The invocation of the callback that belongs to hop [i] of the call: its
    response is the answer to the request of hop [i], and its request is the
    one the client built from that answer for hop [i+1]. *)
Definition callOfHop (srv : server) (rq : Request) (i : nat)
    (call : CallbackArgs) : Prop :=
  match answer (hopExchange srv rq i) with
  | inr rs =>
      match redirect rs with
      | Some loc => cbReq call = mkRequest loc (Some rs) /\ cbResp call = Some rs
      | None => False
      end
  | inl _ => False
  end.

(** A computation of the client only ever lets the wrapper evolve. *)
Definition tame {A} (m : M A) : Prop := forall st, evolves st (snd (m st)).

(** *** Sample inputs *)

Definition conn0 : Conn := mkConn 0 "example.org:80".
Definition conn1 : Conn := mkConn 1 "example.org:443".
Definition plainOK : dialEnv := mkDialEnv Plain "example.org:80" (inr conn0) None.
Definition tlsOK : dialEnv := mkDialEnv TLS "example.org:443" (inr conn1) None.
Definition plainRefused : dialEnv :=
  mkDialEnv Plain "example.org:80" (inl "connection refused") None.
Definition ok200 : Response := mkResponse 200 None.
Definition found302 : Response := mkResponse 302 (Some "http://example.org/next").
Definition serverOf (answers : nat -> Response) : server :=
  fun i _ => mkExchange (negb (Nat.eqb i 0)) plainOK [x47] [x48] (inr (answers i)).

(** *** Vocabulary of the further properties *)

(** What the HTTP transport does on the wrapped connection. *)
Inductive io :=
| Sends (b : bytes)       (* a call of Write *)
| Receives (b : bytes).   (* a call of Read that delivers b *)

Definition doIO (o : io) : M unit :=
  match o with
  | Sends b => Write b
  | Receives b => Read b
  end.

Fixpoint doIOs (l : list io) : M unit :=
  match l with
  | [] => ret tt
  | o :: l' => doIO o ;;; doIOs l'
  end.

Definition sentBytes (l : list io) : bytes :=
  flat_map (fun o => match o with Sends b => b | Receives _ => [] end) l.
Definition receivedBytes (l : list io) : bytes :=
  flat_map (fun o => match o with Sends _ => [] | Receives b => b end) l.

(** The connection a request of index [i] travels on: the first request of
    a fresh client dials with success, the later ones reuse the idle
    connection. *)
Definition onOneConnection (srv : server) (i : nat) (rq : Request) : Prop :=
  if Nat.eqb i 0 then exists conn, underlying (dialing (srv i rq)) = inr conn
  else idle (srv i rq) = true.

(** The ways a call of [RoundTrip] ends, as its caller sees them. *)
Definition responseXorError (r : go (option Response * option error)) : bool :=
  match r with
  | Ret (Some _, None) => true
  | Ret (None, Some _) => true
  | Ret _ => false
  | Panic _ => true
  end.

Definition panicsOnlyWith (msg : string) {A} (r : go A) : Prop :=
  match r with
  | Ret _ => True
  | Panic m => m = msg
  end.

Definition conn2 : Conn := mkConn 2 "other.example:80".
Definition plainOK2 : dialEnv := mkDialEnv Plain "other.example:80" (inr conn2) None.
Definition tlsBadHandshake : dialEnv :=
  mkDialEnv TLS "example.org:443" (inr conn1) (Some "tls: handshake failure").

(** Redirects twice, then answers 200, all on one connection. *)
Definition twoRedirects : server :=
  serverOf (fun i => if Nat.ltb i 2 then found302 else ok200).

(** Redirects once, to a host that needs a connection of its own. *)
Definition redirectElsewhere : server :=
  fun i _ => mkExchange false (if Nat.eqb i 0 then plainOK else plainOK2)
                        [x47] [x48] (inr (if Nat.eqb i 0 then found302 else ok200)).

(** Redirects without end, from the second request on to a host that
    needs a connection of its own. *)
Definition redirectsAcrossHosts : server :=
  fun i _ => mkExchange false (if Nat.eqb i 0 then plainOK else plainOK2)
                        [x47] [x48]
                        (inr (mkResponse 302 (Some "http://other.example/next"))).

End Transport.

(** ** The recorder: record builder and rotating record writer *)
Module Recorder.

(** Modelled from the spec: the header container is declared outside the
    files at hand; the spec gives it as a string-keyed field set.  The code
    here only calls [Set], which replaces the value of a field, and the
    obligations read fields back with [Get].  Names are kept and looked up
    as they are written, where the lookup of the spec ignores their case:
    the properties read a field back under the spelling it was set with,
    and by the fields a call leaves alone they mean those that no spelling
    of a name it sets reaches. *)
Abbreviation Header := (gmap string string).

Definition Header_Set (h : Header) (key value : string) : Header :=
  <[key := value]> h.
Definition Header_Get (h : Header) (key : string) : string :=
  default "" (h !! key).

(** Modelled from the spec: [Record] is [{Header, ContentStream}] and
    [RecordBatch] is [{Records, CaptureTime}]. *)
Record WARCRecord := mkRecord {
  Header_ : Header;
  Content : bytes
}.

Record RecordBatch := mkBatch {
  Records : list WARCRecord;
  CaptureTime : string
}.

Definition SetHeader (r : WARCRecord) (key value : string) : WARCRecord :=
  mkRecord (Header_Set (Header_ r) key value) (Content r).
Definition SetContent (r : WARCRecord) (b : bytes) : WARCRecord :=
  mkRecord (Header_ r) b.

(** type RotatorSettings struct (lines 22-37); [WarcSize] is a [float64]
    number of megabytes, kept as a rational. *)
Record RotatorSettings := mkSettings {
  WarcinfoContent : Header;
  Prefix : string;
  Compression : string;
  WarcSize : Q;
  OutputDirectory : string
}.

(** [http.Request] and [http.Response] as the builder reads them.  A body is
    an [io.ReadCloser]: what [ioutil.ReadAll] and [Close] return on it. *)
Record Body := mkBody {
  readAll : error + bytes;
  closeErr : option error
}.

Record HTTPRequest := mkHTTPRequest {
  URL_String : string;
  URL_Host : string;
  ReqBody : option Body
}.

Record HTTPResponse := mkHTTPResponse {
  RespBody : option Body;
  Request_ : option HTTPRequest
}.

(** The calls [recordWriter] makes on the file system and on the [Writer],
    in program order.  [f] numbers the file handles [os.Create] returns and
    [w] the [Writer] values [NewWriter] returns. *)
Inductive event :=
| OsCreate (f : nat) (path : string)
| EvNewWriter (w f : nat) (fileName compression : string)
| EvWriteInfoRecord (w : nat) (id : string)
| EvWriteRecord (w : nat) (r : WARCRecord)
| GzipClose (w : nat)
| ZstdClose (w : nat)
| Flush (w : nat)
| FileClose (f : nat)
| OsRename (oldpath newpath : string).

(** What the file at hand takes from its surroundings: the library parser
    [textproto.Reader.ReadMIMEHeader], the dump functions of [httputil], the
    helpers declared in the other files of the package, and the operating
    system, whose answers may depend on everything done so far. *)
Record World := mkWorld {
  ReadMIMEHeader : bytes -> error + list (string * list string);
  DumpResponse : HTTPResponse -> error + bytes;
  DumpRequestOut : HTTPRequest -> error + bytes;
  GetSHA1 : bytes -> string;
  NewRecord : WARCRecord;
  generateWarcFileName : string -> string -> Z -> string;
  isFileSizeExceeded : list event -> string -> Q -> bool;
  (* whether the call about to be made returns a non-nil error *)
  fails : list event -> event -> bool;
  (* the identifier WriteInfoRecord gives the info record it writes *)
  infoRecordID : list event -> string
}.

(** *** headersFromRawData (lines 70-103) *)

Definition pattern : bytes := [x0d; x0a; x0d; x0a].

(** [bytes.Equal]. *)
Fixpoint bytes_Equal (a b : bytes) : bool :=
  match a, b with
  | [], [] => true
  | x :: a', y :: b' => Byte.eqb x y && bytes_Equal a' b'
  | _, _ => false
  end.

(** data[i:j] for [i <= j <= len(data)]. *)
Definition slice (data : bytes) (i j : nat) : bytes :=
  take (j - i) (drop i data).

(** The loop of lines 74-83, started at index [i] with [n] indices left to
    range over; the result is [pos], which is 0 when the loop ends without
    a match. *)
Fixpoint scan (data : bytes) (n i : nat) : go nat :=
  match n with
  | O => Ret O
  | S n' =>
      if (length data <? i + 4)%nat then Panic "cant find header data"
      else if bytes_Equal (slice data i (i + 4)) pattern then Ret (i + 4)
      else scan data n' (S i)
  end.

Definition headerEnd (data : bytes) : go nat :=
  match scan data (length data) 0 with
  | Ret O => Panic "cant find header data"
  | r => r
  end.

(** [textproto.Reader.ReadLine] over an in-memory reader: the line up to the
    first LF, without its line ending, and what follows it; [io.EOF] when
    nothing is left to read. *)
Fixpoint splitLine (data : bytes) : bytes * bytes :=
  match data with
  | [] => ([], [])
  | b :: rest =>
      if Byte.eqb b x0a then ([], rest)
      else let '(line, rest') := splitLine rest in (b :: line, rest')
  end.

Definition trimCR (line : bytes) : bytes :=
  match reverse line with
  | b :: l => if Byte.eqb b x0d then reverse l else line
  | [] => line
  end.

Definition ReadLine (data : bytes) : error + (bytes * bytes) :=
  match data with
  | [] => inl "EOF"
  | _ => let '(line, rest) := splitLine data in inr (trimCR line, rest)
  end.

(** [strings.Join(v, ",")]. *)
Fixpoint Join (v : list string) (sep : string) : string :=
  match v with
  | [] => ""
  | [x] => x
  | x :: v' => x ++ sep ++ Join v' sep
  end.

Definition setAll (r : WARCRecord) (h : list (string * list string)) : WARCRecord :=
  fold_left (fun r kv => SetHeader r (fst kv) (Join (snd kv) ",")) h r.

Definition headersFromRawData (w : World) (r : WARCRecord) (data : bytes)
  : go WARCRecord :=
  match headerEnd data with
  | Panic msg => Panic msg
  | Ret pos =>
      match ReadLine (take pos data) with
      | inl e => Panic e
      | inr (_, rest) =>
          match ReadMIMEHeader w rest with
          | inl e => Panic e
          | inr mimeHeader => Ret (setAll r mimeHeader)
          end
      end
  end.

(** [readReaderIfNotNil] (lines 105-120). *)
Definition readReaderIfNotNil (r : option Body) : go bytes :=
  match r with
  | None => Ret []
  | Some b =>
      match readAll b with
      | inl e => Panic e
      | inr all =>
          match closeErr b with
          | Some e => Panic e
          | None => Ret all
          end
      end
  end.

Definition andThen {A B} (m : go A) (k : A -> go B) : go B :=
  match m with
  | Ret a => k a
  | Panic msg => Panic msg
  end.

(** Modelled from the spec: [NewRecordBatch] is declared outside the files
    at hand; a batch is [{Records, CaptureTime}] and starts with no record
    and the time of its creation. *)
Definition NewRecordBatch (now : string) : RecordBatch := mkBatch [] now.

(** [rawResponseCallback] (lines 122-158): the batch it sends on the
    rotator's channel, or the panic that ends it before the send. *)
Definition rawResponseCallback (w : World) (now : string)
    (req : HTTPRequest) (resp : HTTPResponse) (reqData respData : bytes)
  : go RecordBatch :=
  let batch := NewRecordBatch now in
  andThen (headersFromRawData w (NewRecord w) respData) (fun responseRecord =>
  let responseRecord := SetHeader responseRecord "WARC-Type" "response" in
  let responseRecord :=
    SetHeader responseRecord "WARC-Payload-Digest" ("sha1:" ++ GetSHA1 w respData) in
  let responseRecord := SetHeader responseRecord "WARC-Target-URI" (URL_String req) in
  let responseRecord :=
    SetHeader responseRecord "Content-Type" "application/http; msgtype=response" in
  andThen (readReaderIfNotNil (RespBody resp)) (fun respBody =>
  let responseRecord := SetContent responseRecord respBody in
  andThen (headersFromRawData w (NewRecord w) reqData) (fun requestRecord =>
  let requestRecord := SetHeader requestRecord "WARC-Type" "request" in
  let requestRecord :=
    SetHeader requestRecord "WARC-Payload-Digest" ("sha1:" ++ GetSHA1 w reqData) in
  let requestRecord := SetHeader requestRecord "WARC-Target-URI" (URL_String req) in
  let requestRecord := SetHeader requestRecord "Host" (URL_Host req) in
  let requestRecord :=
    SetHeader requestRecord "Content-Type" "application/http; msgtype=request" in
  andThen (readReaderIfNotNil (ReqBody req)) (fun reqBody =>
  let requestRecord := SetContent requestRecord reqBody in
  Ret (mkBatch (Records batch ++ [responseRecord; requestRecord])
               (CaptureTime batch)))))).

(** [RecordsFromHTTPResponse] (lines 162-200): the pair it returns, or the
    nil dereference of [response.Request]. *)
Definition RecordsFromHTTPResponse (w : World) (now : string)
    (response : HTTPResponse) : go (RecordBatch * option error) :=
  let batch := NewRecordBatch now in
  match DumpResponse w response with
  | inl e => Ret (batch, Some e)
  | inr responseDump =>
      let responseRecord := NewRecord w in
      let responseRecord := SetHeader responseRecord "WARC-Type" "response" in
      let responseRecord :=
        SetHeader responseRecord "WARC-Payload-Digest"
                  ("sha1:" ++ GetSHA1 w responseDump) in
      match Request_ response with
      | None => Panic "nil pointer dereference"
      | Some request =>
          let responseRecord :=
            SetHeader responseRecord "WARC-Target-URI" (URL_String request) in
          let responseRecord :=
            SetHeader responseRecord "Content-Type"
                      "application/http; msgtype=response" in
          let responseRecord := SetContent responseRecord responseDump in
          match DumpRequestOut w request with
          | inl e => Ret (batch, Some e)
          | inr requestDump =>
              let requestRecord := NewRecord w in
              let requestRecord := SetHeader requestRecord "WARC-Type" "request" in
              let requestRecord :=
                SetHeader requestRecord "WARC-Payload-Digest"
                          ("sha1:" ++ GetSHA1 w requestDump) in
              let requestRecord :=
                SetHeader requestRecord "WARC-Target-URI" (URL_String request) in
              let requestRecord := SetHeader requestRecord "Host" (URL_Host request) in
              let requestRecord :=
                SetHeader requestRecord "Content-Type"
                          "application/http; msgtype=request" in
              let requestRecord := SetContent requestRecord requestDump in
              Ret (mkBatch (Records batch ++ [responseRecord; requestRecord])
                           (CaptureTime batch), None)
          end
      end
  end.

(** *** recordWriter (lines 238-375) *)

(** [strings.TrimSuffix]. *)
Definition HasSuffix (s suffix : string) : bool :=
  (String.length suffix <=? String.length s)%nat
  && String.eqb
       (substring (String.length s - String.length suffix)
                  (String.length suffix) s)
       suffix.

Definition TrimSuffix (s suffix : string) : string :=
  if HasSuffix s suffix
  then substring 0 (String.length s - String.length suffix) s
  else s.

(** Go's [int] on a 64-bit platform. *)
Definition wrap64 (z : Z) : Z := ((z + 2 ^ 63) mod 2 ^ 64 - 2 ^ 63)%Z.

Definition isCreate (e : event) : bool :=
  match e with OsCreate _ _ => true | _ => false end.
Definition isNewWriter (e : event) : bool :=
  match e with EvNewWriter _ _ _ _ => true | _ => false end.

(** The state of a run is the calls made so far. *)
Abbreviation W := (GoM (list event)).

(** The local variables of [recordWriter] that live across iterations. *)
Record vars := mkVars {
  serial : Z;
  currentFileName : string;
  currentWarcinfoRecordID : string;
  warcFile : nat;
  warcWriter : nat
}.

Section RecordWriter.

Variable w : World.
Variable settings : RotatorSettings.

(** A call whose error the code checks with [panic(err)]. *)
Definition attempt (e : event) : W unit :=
  fun tr => if fails w tr e then (Panic "err", tr) else (Ret tt, tr ++ [e]).

(** A call whose result the code drops. *)
Definition perform (e : event) : W unit :=
  fun tr => (Ret tt, tr ++ [e]).

Definition os_Create (path : string) : W nat :=
  tr <- get ;;
  let f := length (filter isCreate tr) in
  attempt (OsCreate f path) ;;; ret f.

Definition NewWriter (f : nat) (fileName compression : string) : W nat :=
  tr <- get ;;
  let wr := length (filter isNewWriter tr) in
  attempt (EvNewWriter wr f fileName compression) ;;; ret wr.

Definition WriteInfoRecord (wr : nat) (payload : Header) : W string :=
  tr <- get ;;
  let id := infoRecordID w tr in
  attempt (EvWriteInfoRecord wr id) ;;; ret id.

Definition WriteRecord (wr : nat) (r : WARCRecord) : W unit :=
  attempt (EvWriteRecord wr r).

Definition os_Rename (oldpath newpath : string) : W unit :=
  attempt (OsRename oldpath newpath).

(** The block that recurs at lines 291-297, 322-328, 347-353 and 361-367:
    close the compression stream of the writer, if there is one. *)
Definition closeChunk (wr : nat) : W unit :=
  if negb (String.eqb (Compression settings) "") then
    if String.eqb (Compression settings) "GZIP" then perform (GzipClose wr)
    else if String.eqb (Compression settings) "ZSTD" then perform (ZstdClose wr)
    else ret tt
  else ret tt.

(** Lines 241-278: the first file, its info record, and the writer the
    loop starts with. *)
Definition openFirst : W vars :=
  let serial := 1%Z in
  let currentFileName :=
    generateWarcFileName w (Prefix settings) (Compression settings) serial in
  warcFile <- os_Create (OutputDirectory settings ++ currentFileName) ;;
  warcWriter <- NewWriter warcFile currentFileName (Compression settings) ;;
  currentWarcinfoRecordID <- WriteInfoRecord warcWriter (WarcinfoContent settings) ;;
  warcWriter <-
    (if negb (String.eqb (Compression settings) "") then
       if String.eqb (Compression settings) "GZIP" then
         perform (GzipClose warcWriter) ;;;
         NewWriter warcFile currentFileName (Compression settings)
       else if String.eqb (Compression settings) "ZSTD" then
         perform (ZstdClose warcWriter) ;;;
         NewWriter warcFile currentFileName (Compression settings)
       else ret warcWriter
     else ret warcWriter) ;;
  ret (mkVars serial currentFileName currentWarcinfoRecordID warcFile warcWriter).

(** Lines 281-329: the rotation.  The identifier of the new info record is
    bound by [:=] to a variable of the block (line 315) and dropped (line
    319); the variable of the function keeps its value. *)
Definition rotate (v : vars) : W vars :=
  os_Rename (OutputDirectory settings ++ currentFileName v)
            (TrimSuffix (OutputDirectory settings ++ currentFileName v) ".open") ;;;
  perform (Flush (warcWriter v)) ;;;
  closeChunk (warcWriter v) ;;;
  perform (FileClose (warcFile v)) ;;;
  let serial := wrap64 (serial v + 1) in
  let currentFileName :=
    generateWarcFileName w (Prefix settings) (Compression settings) serial in
  warcFile <- os_Create (OutputDirectory settings ++ currentFileName) ;;
  warcWriter <- NewWriter warcFile currentFileName (Compression settings) ;;
  _blockWarcinfoRecordID <- WriteInfoRecord warcWriter (WarcinfoContent settings) ;;
  closeChunk warcWriter ;;;
  ret (mkVars serial currentFileName (currentWarcinfoRecordID v) warcFile warcWriter).

(** The two header fields stamped at lines 338-339. *)
Definition stamp (captureTime id : string) (record : WARCRecord) : WARCRecord :=
  SetHeader (SetHeader record "WARC-Date" captureTime)
            "WARC-Warcinfo-ID" ("<urn:uuid:" ++ id ++ ">").

(** Lines 332-354: one record of the batch. *)
Definition writeOne (captureTime : string) (v : vars) (record : WARCRecord)
  : W vars :=
  warcWriter <- NewWriter (warcFile v) (currentFileName v) (Compression settings) ;;
  let record := stamp captureTime (currentWarcinfoRecordID v) record in
  WriteRecord warcWriter record ;;;
  closeChunk warcWriter ;;;
  ret (mkVars (serial v) (currentFileName v) (currentWarcinfoRecordID v)
              (warcFile v) warcWriter).

(** Lines 280-356: one batch received from the channel. *)
Definition writeBatch (v : vars) (recordBatch : RecordBatch) : W vars :=
  tr <- get ;;
  v <- (if isFileSizeExceeded w tr (OutputDirectory settings ++ currentFileName v)
                              (WarcSize settings)
        then rotate v else ret v) ;;
  v <- forRange (writeOne (CaptureTime recordBatch)) (Records recordBatch) v ;;
  perform (Flush (warcWriter v)) ;;;
  ret v.

(** Lines 358-374: the channel has been closed. *)
Definition shutdown (v : vars) : W unit :=
  perform (Flush (warcWriter v)) ;;;
  closeChunk (warcWriter v) ;;;
  perform (FileClose (warcFile v)) ;;;
  os_Rename (OutputDirectory settings ++ currentFileName v)
            (TrimSuffix (OutputDirectory settings ++ currentFileName v) ".open").

(** [recordWriter], run on the batches the channel delivers before it is
    closed. *)
Definition recordWriter (records : list RecordBatch) : W unit :=
  v <- openFirst ;;
  v <- forRange writeBatch records v ;;
  shutdown v.

End RecordWriter.

(** *** What a run leaves behind *)

(** The paths of the files created, in order. *)
Definition createdPaths (tr : list event) : list string :=
  flat_map (fun e => match e with OsCreate _ path => [path] | _ => [] end) tr.

(** The records handed to [WriteRecord], in order. *)
Definition writtenRecords (tr : list event) : list WARCRecord :=
  flat_map (fun e => match e with EvWriteRecord _ r => [r] | _ => [] end) tr.

(** A record on disk: an info record, known by its identifier, or a record
    of a batch. *)
Inductive item :=
| InfoRecord (id : string)
| DataRecord (r : WARCRecord).

Definition written (e : event) : list (nat * item) :=
  match e with
  | EvWriteInfoRecord wr id => [(wr, InfoRecord id)]
  | EvWriteRecord wr r => [(wr, DataRecord r)]
  | _ => []
  end.

(** The file handle a [Writer] was built over. *)
Fixpoint writerFile (tr : list event) (wr : nat) : option nat :=
  match tr with
  | [] => None
  | EvNewWriter wr' f _ _ :: tr' =>
      if Nat.eqb wr' wr then Some f else writerFile tr' wr
  | _ :: tr' => writerFile tr' wr
  end.

(** The records written to the file of handle [f], first to last. *)
Definition fileItems (tr : list event) (f : nat) : list item :=
  flat_map (fun e =>
    flat_map (fun wi =>
      match writerFile tr (fst wi) with
      | Some f' => if Nat.eqb f' f then [snd wi] else []
      | None => []
      end) (written e)) tr.

Definition backRef (it : item) : option string :=
  match it with
  | InfoRecord _ => None
  | DataRecord r => Some (Header_Get (Header_ r) "WARC-Warcinfo-ID")
  end.

(** Every record of a file that is not an info record refers to the info
    record the file starts with. *)
Definition backRefsOK (items : list item) : bool :=
  match items with
  | [] => true
  | InfoRecord id :: rest =>
      forallb (fun it =>
        match backRef it with
        | Some ref => String.eqb ref ("<urn:uuid:" ++ id ++ ">")
        | None => true
        end) rest
  | DataRecord _ :: _ => false
  end.

(** Compressed files.  A [Writer] built with compression owns a compression
    stream over its file; the records written through it go to the frame
    the stream has open; closing the stream completes the frame on disk.
    Closing a stream again does nothing. *)
Record disk := mkDisk {
  streams : gmap nat (nat * list item);   (* open streams: file and frame so far *)
  frames : list (nat * list item)         (* complete frames: file and content *)
}.

Definition emptyDisk : disk := mkDisk ∅ [].

Definition addToStream (it : item) (s : nat * list item) : nat * list item :=
  (fst s, snd s ++ [it]).

Definition closeStream (d : disk) (wr : nat) : disk :=
  match streams d !! wr with
  | Some s => mkDisk (delete wr (streams d)) (frames d ++ [s])
  | None => d
  end.

Definition apply (d : disk) (e : event) : disk :=
  match e with
  | EvNewWriter wr f _ _ => mkDisk (<[wr := (f, [])]> (streams d)) (frames d)
  | EvWriteInfoRecord wr id =>
      mkDisk (alter (addToStream (InfoRecord id)) wr (streams d)) (frames d)
  | EvWriteRecord wr r =>
      mkDisk (alter (addToStream (DataRecord r)) wr (streams d)) (frames d)
  | GzipClose wr | ZstdClose wr => closeStream d wr
  | _ => d
  end.

Definition diskOf (tr : list event) : disk := fold_left apply tr emptyDisk.

(** *** Vocabulary of the properties *)

(** The path of the file of serial [n]. *)
Definition path (w : World) (settings : RotatorSettings) (n : nat) : string :=
  OutputDirectory settings ++
  generateWarcFileName w (Prefix settings) (Compression settings) (Z.of_nat n).

(** The files created so far are those of the serials 1 to [n]. *)
Definition paths (w : World) (settings : RotatorSettings) (n : nat)
    (tr : list event) : Prop :=
  createdPaths tr = map (path w settings) (seq 1 n).

Definition anyPaths (w : World) (settings : RotatorSettings) (bound : nat)
    (tr : list event) : Prop :=
  exists n, (n <= bound)%nat /\ paths w settings n tr.

(** The identifiers of the info records written, in order. *)
Definition infoIDs (tr : list event) : list string :=
  flat_map (fun e => match e with EvWriteInfoRecord _ id => [id] | _ => [] end) tr.

Definition isWriteRecord (e : event) : bool :=
  match e with EvWriteRecord _ _ => true | _ => false end.

(** The records of the batches as [recordWriter] stamps them when the
    variable [currentWarcinfoRecordID] holds [id]. *)
Definition stamped (id : string) (bs : list RecordBatch) : list WARCRecord :=
  flat_map (fun b => map (stamp (CaptureTime b) id) (Records b)) bs.

Definition wrote (id : string) (X : list WARCRecord) (tr : list event) : Prop :=
  writtenRecords tr = X /\ head (infoIDs tr) = Some id.

(** What a run that stops early has written: a prefix. *)
Definition wrotePrefix (id : string) (X Y : list WARCRecord) (tr : list event)
  : Prop :=
  exists Z, Z `prefix_of` Y /\ wrote id (X ++ Z) tr.

Definition dateOf (r : WARCRecord) : string := Header_Get (Header_ r) "WARC-Date".
Definition typeOf (r : WARCRecord) : string := Header_Get (Header_ r) "WARC-Type".
Definition warcinfoOf (r : WARCRecord) : string :=
  Header_Get (Header_ r) "WARC-Warcinfo-ID".

(** The capture time of its batch, for every record of every batch. *)
Definition captureTimes (bs : list RecordBatch) : list string :=
  flat_map (fun b => map (fun _ => CaptureTime b) (Records b)) bs.

Definition urn (id : string) : string := "<urn:uuid:" ++ id ++ ">".

(** All the records written, info records included, in order. *)
Definition items (tr : list event) : list item := map snd (flat_map written tr).

Definition isWrite (e : event) : bool :=
  match e with
  | EvWriteInfoRecord _ _ | EvWriteRecord _ _ => true
  | _ => false
  end.

(** Every complete frame holds at most one record, no open stream holds
    any, and the frames hold, in order, all the records written. *)
Definition framed (tr : list event) : Prop :=
  Forall (fun fr => (length (snd fr) <= 1)%nat) (frames (diskOf tr)) /\
  map_Forall (fun _ s => snd s = []) (streams (diskOf tr)) /\
  flat_map snd (frames (diskOf tr)) = items tr.

Definition holdsRecord (fr : nat * list item) : bool :=
  match snd fr with [] => false | _ => true end.

(** The complete frames of the file of handle [f], in order. *)
Definition framesOf (f : nat) (d : disk) : list (nat * list item) :=
  List.filter (fun fr => Nat.eqb (fst fr) f) (frames d).

(** What a reader gets that decodes, in the file of handle [f], the first
    [n] frames holding a record and nothing after them. *)
Definition decodeFirst (f n : nat) (d : disk) : list item :=
  flat_map snd (take n (List.filter holdsRecord (framesOf f d))).

(** The delimiter stands at index [i] of [data]. *)
Definition delimiterAt (data : bytes) (i : nat) : Prop :=
  exists post, data = take i data ++ pattern ++ post /\ (i <= length data)%nat.

(** *** Sample inputs *)

(** The records written to the current file. *)
Definition sinceCreate (tr : list event) : nat :=
  fold_left (fun n e =>
    match e with
    | OsCreate _ _ => O
    | EvWriteRecord _ _ => S n
    | _ => n
    end) tr O.

(** A world where nothing fails, a file is full once it holds a record of a
    batch, and the info records are numbered as the files are. *)
Definition sampleWorld : World := {|
  ReadMIMEHeader := fun _ => inr [("Content-Length", ["0"])];
  DumpResponse := fun _ => inr [x48; x0d; x0a; x0d; x0a];
  DumpRequestOut := fun _ => inr [x47; x0d; x0a; x0d; x0a];
  GetSHA1 := fun _ => "da39a3ee5e6b4b0d3255bfef95601890afd80709";
  NewRecord := mkRecord ∅ [];
  generateWarcFileName := fun prefix _ serial =>
    (prefix ++ "-" ++ pretty serial ++ ".warc.open")%string;
  isFileSizeExceeded := fun tr _ _ => (1 <=? sinceCreate tr)%nat;
  fails := fun _ _ => false;
  infoRecordID := fun tr => ("id" ++ pretty (length (filter isCreate tr)))%string
|}.

Definition sampleSettings (compression : string) : RotatorSettings :=
  mkSettings ∅ "EX" compression 1 "/tmp/".

Definition sampleRecord : WARCRecord := mkRecord ∅ [x41].
Definition batch1 : RecordBatch := mkBatch [sampleRecord] "2021-01-01T00:00:01Z".
Definition batch2 : RecordBatch := mkBatch [sampleRecord] "2021-01-01T00:00:02Z".

Definition sampleRequest : HTTPRequest :=
  mkHTTPRequest "http://example.org/" "example.org" None.
Definition sampleResponse : HTTPResponse :=
  mkHTTPResponse (Some (mkBody (inr [x41]) None)) (Some sampleRequest).
Definition sampleDump : bytes := [x48; x0d; x0a; x0d; x0a; x41].

(** *** Vocabulary of the further properties *)

Definition fieldOf (key : string) (r : WARCRecord) : string :=
  Header_Get (Header_ r) key.

(** Field names as the header container of the spec looks them up, without
    regard to the case of their ASCII letters: [lowerName] is the spelling
    all the spellings of one name share. *)
Definition lowerByte (a : ascii) : ascii :=
  let n := nat_of_ascii a in
  if ((65 <=? n) && (n <=? 90))%nat then ascii_of_nat (n + 32) else a.

Fixpoint lowerName (s : string) : string :=
  match s with
  | EmptyString => EmptyString
  | String a s' => String (lowerByte a) (lowerName s')
  end.

Definition sameField (k1 k2 : string) : bool :=
  String.eqb (lowerName k1) (lowerName k2).

(** [key] is a spelling of one of the names [keys]. *)
Definition namesOneOf (keys : list string) (key : string) : bool :=
  existsb (sameField key) keys.
Arguments namesOneOf : simpl never.

(** The record [r] is [r0] but for the two fields [recordWriter] stamps. *)
Definition sameButStamps (r0 r : WARCRecord) : Prop :=
  Content r = Content r0 /\
  forall key, namesOneOf ["WARC-Date"; "WARC-Warcinfo-ID"] key = false ->
              fieldOf key r = fieldOf key r0.

(** All the records of the batches, in the order of arrival. *)
Definition allRecords (bs : list RecordBatch) : list WARCRecord :=
  flat_map Records bs.
(** The renames made, in order: old path and new path. *)
Definition renames (tr : list event) : list (string * string) :=
  flat_map (fun e => match e with OsRename o n => [(o, n)] | _ => [] end) tr.

(** The rename that publishes the file at [p]. *)
Definition publishedAs (p : string) : string * string := (p, TrimSuffix p ".open").

(** Every file created has been published but the one at [cur]. *)
Definition sealedBut (cur : string) (tr : list event) : Prop :=
  exists ps, createdPaths tr = ps ++ [cur] /\ renames tr = map publishedAs ps.

(** Every file created has been published, in the order of creation. *)
Definition sealedAll (tr : list event) : Prop :=
  renames tr = map publishedAs (createdPaths tr).

Definition nearlySealed (tr : list event) : Prop :=
  exists ps rest, createdPaths tr = ps ++ rest /\ (length rest <= 1)%nat /\
                  renames tr = map publishedAs ps.

Definition isRename (e : event) : bool :=
  match e with OsRename _ _ => true | _ => false end.

(** The close the block of lines 291-297 makes on the writer [wr]. *)
Definition closeEventsOf (settings : RotatorSettings) (wr : nat) : list event :=
  if String.eqb (Compression settings) "GZIP" then [GzipClose wr]
  else if String.eqb (Compression settings) "ZSTD" then [ZstdClose wr]
  else [].

(** The compression a close call belongs to. *)
Definition closeKind (e : event) : option string :=
  match e with
  | GzipClose _ => Some "GZIP"
  | ZstdClose _ => Some "ZSTD"
  | _ => None
  end.

Definition closeMatches (settings : RotatorSettings) (e : event) : Prop :=
  match closeKind e with
  | Some k => Compression settings = k
  | None => True
  end.

(** The life of the files of a run, read off its calls.  A file is created
    when no file is open; its info record is the first record written to
    it and the only info record; records go through the writer created
    last, which is a writer over the file created last; the file is closed
    once, and then nothing more is written to it. *)
Inductive phase := NoFile | Created | Started | Closed.

Record layoutState := mkLayout {
  curFile : option nat;             (* the file created last *)
  lastWriter : option (nat * nat);  (* the writer created last, and its file *)
  filePhase : phase
}.

Definition isPhase (p q : phase) : bool :=
  match p, q with
  | NoFile, NoFile | Created, Created | Started, Started | Closed, Closed => true
  | _, _ => false
  end.

Definition onCurrent (s : layoutState) (f : nat) : bool :=
  match curFile s with Some f' => Nat.eqb f' f | None => false end.

Definition throughLast (s : layoutState) (wr : nat) : bool :=
  match lastWriter s with
  | Some (wr', f) => Nat.eqb wr' wr && onCurrent s f
  | None => false
  end.

Definition layoutStep (s : layoutState) (e : event) : option layoutState :=
  match e with
  | OsCreate f _ =>
      if isPhase (filePhase s) NoFile || isPhase (filePhase s) Closed
      then Some (mkLayout (Some f) (lastWriter s) Created) else None
  | EvNewWriter wr f _ _ =>
      if onCurrent s f && negb (isPhase (filePhase s) Closed)
      then Some (mkLayout (curFile s) (Some (wr, f)) (filePhase s)) else None
  | EvWriteInfoRecord wr _ =>
      if isPhase (filePhase s) Created && throughLast s wr
      then Some (mkLayout (curFile s) (lastWriter s) Started) else None
  | EvWriteRecord wr _ =>
      if isPhase (filePhase s) Started && throughLast s wr
      then Some s else None
  | FileClose f =>
      if isPhase (filePhase s) Started && onCurrent s f
      then Some (mkLayout (curFile s) (lastWriter s) Closed) else None
  | _ => Some s
  end.

Definition layout (tr : list event) : option layoutState :=
  fold_left (fun os e => match os with Some s => layoutStep s e | None => None end)
            tr (Some (mkLayout None None NoFile)).

(** The layout is sound so far and the file [f] is the current one, in
    phase [ph]. *)
Definition laidOut (f : nat) (ph : phase) (tr : list event) : Prop :=
  exists lw, layout tr = Some (mkLayout (Some f) lw ph).

(** The world [w] with another size check. *)
Definition withSizeCheck (w : World) (check : list event -> string -> Q -> bool)
  : World :=
  mkWorld (ReadMIMEHeader w) (DumpResponse w) (DumpRequestOut w) (GetSHA1 w)
          (NewRecord w) (generateWarcFileName w) check (fails w) (infoRecordID w).

Definition neverFull : World := withSizeCheck sampleWorld (fun _ _ _ => false).
Definition alwaysFull : World := withSizeCheck sampleWorld (fun _ _ _ => true).
Definition soundLayout (tr : list event) : Prop := is_Some (layout tr).

(** The path of the file the variables of [recordWriter] point at. *)
Definition curPath (settings : RotatorSettings) (v : vars) : string :=
  OutputDirectory settings ++ currentFileName v.

Definition closesMatch (settings : RotatorSettings) (tr : list event) : Prop :=
  Forall (closeMatches settings) tr.

(** The sample world with a request dump that fails. *)
Definition brokenRequestDump : World :=
  mkWorld (ReadMIMEHeader sampleWorld) (DumpResponse sampleWorld)
          (fun _ => inl "http: ContentLength with Body length 0")
          (GetSHA1 sampleWorld) (NewRecord sampleWorld)
          (generateWarcFileName sampleWorld) (isFileSizeExceeded sampleWorld)
          (fails sampleWorld) (infoRecordID sampleWorld).

(** The records of the batches written to each file, file by file: the
    files already left behind, and the records in the file being written. *)
Definition groupStep (g : list (list WARCRecord) * option (list WARCRecord))
    (e : event) : list (list WARCRecord) * option (list WARCRecord) :=
  match e with
  | OsCreate _ _ =>
      (fst g ++ match snd g with Some cur => [cur] | None => [] end, Some [])
  | EvWriteRecord _ r =>
      (fst g, Some (match snd g with Some cur => cur | None => [] end ++ [r]))
  | _ => g
  end.

Definition grouping (tr : list event)
  : list (list WARCRecord) * option (list WARCRecord) :=
  fold_left groupStep tr ([], None).

Definition recordsByFile (tr : list event) : list (list WARCRecord) :=
  fst (grouping tr) ++ match snd (grouping tr) with Some cur => [cur] | None => [] end.

(** The files left behind hold the batches of [gs], file by file, and the
    current file holds the records [cur]. *)
Definition grouped (id : string) (gs : list (list RecordBatch))
    (cur : list WARCRecord) (tr : list event) : Prop :=
  grouping tr = (map (stamped id) gs, Some cur).

End Recorder.

(** * Properties *)

(** ** Rules of the Hoare logic *)
Section Hoare.
Context {S : Type}.

Lemma hoare_ret {A} (a : A) (P : S -> Prop) (Q : A -> S -> Prop) R :
  (forall st, P st -> Q a st) -> hoare P (ret a) Q R.
Proof. intros H st HP. apply H, HP. Qed.

Lemma hoare_bind {A B} (m : GoM S A) (k : A -> GoM S B) P Q Q' R :
  hoare P m Q R -> (forall a, hoare (Q a) (k a) Q' R) ->
  hoare P (bind m k) Q' R.
Proof.
  intros Hm Hk st HP. unfold bind. specialize (Hm st HP).
  destruct (m st) as [[a|msg] st1]; [apply Hk, Hm|exact Hm].
Qed.

Lemma hoare_get (P : S -> Prop) (Q : S -> S -> Prop) R :
  (forall st, P st -> Q st st) -> hoare P get Q R.
Proof. intros H st HP. apply H, HP. Qed.

End Hoare.

(** ** The capturing client *)
Module TransportFacts.
Import Transport.

Lemma plainDial_run d st :
  kind d = Plain ->
  plainDial d st = (Ret (underlying d), addNet st (underlyingEvents d)).
Proof.
  unfold plainDial, underlying, underlyingEvents, bind, emit, ret, addNet.
  destruct d as [[] a [e|cn] [h|]]; simpl; intros K; try discriminate;
    reflexivity.
Qed.

Lemma tlsDial_run d st :
  kind d = TLS ->
  tlsDial d st = (Ret (underlying d), addNet st (underlyingEvents d)).
Proof.
  unfold tlsDial, underlying, underlyingEvents, bind, emit, ret, addNet.
  destruct d as [[] a [e|cn] [h|]]; simpl; intros K; try discriminate;
    rewrite <- ?app_assoc; reflexivity.
Qed.

Lemma dial_attached d st old :
  c (cW st) = Some old ->
  dial d st =
    (match underlying d with
     | inl e => Ret (inl e)
     | inr _ => Panic "connWrapper already contains a connection"
     end, addNet st (underlyingEvents d)).
Proof.
  intros Hc. unfold dial, DialContext, DialTLSContext, wrap, bind.
  destruct (kind d) eqn:K.
  - rewrite plainDial_run by assumption. destruct (underlying d); simpl; [reflexivity|].
    rewrite Hc. reflexivity.
  - rewrite tlsDial_run by assumption. destruct (underlying d); simpl; [reflexivity|].
    rewrite Hc. reflexivity.
Qed.

Lemma dial_free d st :
  c (cW st) = None ->
  dial d st =
    match underlying d with
    | inl e => (Ret (inl e), addNet st (underlyingEvents d))
    | inr conn =>
        (Ret (inr TheConnWrapper),
         mkState (mkConnWrapper (Some conn) (resp (cW st)) (req (cW st)))
                 (calls st)
                 (net st ++ underlyingEvents d ++ [EvAttach conn]))
    end.
Proof.
  intros Hc. unfold dial, DialContext, DialTLSContext, wrap, bind.
  destruct (kind d) eqn:K.
  - rewrite plainDial_run by assumption. destruct (underlying d); simpl; [reflexivity|].
    rewrite Hc. unfold setCW, emit, ret. simpl. rewrite <- app_assoc. reflexivity.
  - rewrite tlsDial_run by assumption. destruct (underlying d); simpl; [reflexivity|].
    rewrite Hc. unfold setCW, emit, ret. simpl. rewrite <- app_assoc. reflexivity.
Qed.


Lemma attaches_addNet st evs :
  attaches (addNet st evs) = (attaches st + length (filter isAttach evs))%nat.
Proof. unfold attaches, addNet. simpl. rewrite filter_app, length_app. reflexivity. Qed.

Lemma underlyingEvents_no_attach d : filter isAttach (underlyingEvents d) = [].
Proof. unfold underlyingEvents. destruct (kind d), (dialRes d); reflexivity. Qed.

Lemma evolves_refl st : evolves st st.
Proof. left. split; reflexivity. Qed.

Lemma evolves_trans st1 st2 st3 :
  evolves st1 st2 -> evolves st2 st3 -> evolves st1 st3.
Proof.
  unfold evolves. intros [[E1 A1]|(N1 & S1 & A1)] [[E2 A2]|(N2 & S2 & A2)].
  - left. split; congruence.
  - right. repeat split; try congruence.
  - right. repeat split; try congruence.
  - rewrite N2 in S1. destruct S1 as [x Hx]. discriminate.
Qed.

Lemma tame_ret {A} (a : A) : tame (ret a).
Proof. intros st. apply evolves_refl. Qed.

Lemma tame_panic {A} msg : tame (@panic state A msg).
Proof. intros st. apply evolves_refl. Qed.

Lemma tame_bind {A B} (m : M A) (k : A -> M B) :
  tame m -> (forall a, tame (k a)) -> tame (bind m k).
Proof.
  intros Hm Hk st. unfold bind. specialize (Hm st).
  destruct (m st) as [[a|msg] st1]; simpl in *.
  - eapply evolves_trans; [exact Hm|apply Hk].
  - exact Hm.
Qed.

Lemma tame_get : tame get.
Proof. intros st. apply evolves_refl. Qed.

Lemma tame_Read b : tame (Read b).
Proof. intros st. left. split; reflexivity. Qed.

Lemma tame_Write b : tame (Write b).
Proof. intros st. left. split; reflexivity. Qed.

Lemma tame_Close : tame Close.
Proof.
  intros st. unfold Close, bind, get. simpl.
  destruct (c (cW st)) eqn:E; simpl.
  - left. split; [reflexivity|]. unfold attaches. simpl.
    rewrite filter_app, length_app. simpl. lia.
  - apply evolves_refl.
Qed.

Lemma tame_triggerCallback rq rs : tame (triggerCallback rq rs).
Proof. intros st. left. split; reflexivity. Qed.

Lemma tame_checkRedirect rq via : tame (checkRedirect rq via).
Proof.
  unfold checkRedirect. apply tame_bind; [apply tame_triggerCallback|].
  intros _. destruct (10 <=? Z.of_nat (length via))%Z; apply tame_ret.
Qed.

Lemma tame_dial d : tame (dial d).
Proof.
  intros st. destruct (c (cW st)) eqn:E.
  - rewrite (dial_attached d st _ E). simpl. left. split; [reflexivity|].
    rewrite attaches_addNet, underlyingEvents_no_attach. simpl. lia.
  - rewrite (dial_free d st E). destruct (underlying d) as [e|conn]; simpl.
    + left. split; [reflexivity|].
      rewrite attaches_addNet, underlyingEvents_no_attach. simpl. lia.
    + right. split; [assumption|]. split; [eexists; reflexivity|].
      unfold attaches. simpl. rewrite !filter_app, !length_app.
      rewrite underlyingEvents_no_attach. simpl. lia.
Qed.

Lemma tame_send ex : tame (send ex).
Proof.
  unfold send. apply tame_bind; [apply tame_get|]. intros st0.
  apply tame_bind.
  - destruct (idle ex && bool_decide (is_Some (c (cW st0)))); [apply tame_ret|apply tame_dial].
  - intros [e|[]]; [apply tame_ret|].
    apply tame_bind; [apply tame_Write|]. intros _.
    apply tame_bind; [apply tame_Read|]. intros _. apply tame_ret.
Qed.

Lemma tame_do_loop srv fuel : forall reqs rq, tame (do_loop srv fuel reqs rq).
Proof.
  induction fuel as [|fuel IH]; intros reqs rq; simpl.
  - apply tame_panic.
  - apply tame_bind; [apply tame_send|]. intros [e|rs]; [apply tame_ret|].
    destruct (redirect rs) as [loc|]; [|apply tame_ret].
    apply tame_bind; [apply tame_checkRedirect|].
    intros [e|]; [apply tame_ret|apply IH].
Qed.

Lemma tame_RoundTrip srv rq : tame (RoundTrip srv rq).
Proof.
  unfold RoundTrip, Do. apply tame_bind; [apply tame_do_loop|].
  intros [rs [e|]]; apply tame_ret.
Qed.

Lemma evolves_runOp o st : evolves st (runOp o st).
Proof.
  destruct o; simpl.
  - apply tame_dial.
  - apply tame_Close.
  - apply tame_Write.
  - apply tame_Read.
  - apply tame_checkRedirect.
  - apply tame_RoundTrip.
Qed.

Lemma evolves_runOps ops : forall st, evolves st (runOps ops st).
Proof.
  induction ops as [|o ops IH]; intros st; simpl.
  - apply evolves_refl.
  - eapply evolves_trans; [apply evolves_runOp|apply IH].
Qed.

Lemma evolves_attached st st' old :
  evolves st st' -> c (cW st) = Some old ->
  c (cW st') = Some old /\ attaches st' = attaches st.
Proof.
  intros [[E A]|(N & _ & _)] Hc; [split; congruence|congruence].
Qed.

(** Over the whole life of a client at most one connection is attached. *)
Lemma at_most_one_attach ops : (attaches (runOps ops foo_state) <= 1)%nat.
Proof.
  destruct (evolves_runOps ops foo_state) as [[_ A]|(_ & _ & A)];
    rewrite A; unfold attaches; simpl; lia.
Qed.


Lemma send_keeps_calls ex st : calls (snd (send ex st)) = calls st.
Proof.
  unfold send, bind, get. simpl.
  destruct (idle ex && bool_decide (is_Some (c (cW st)))); simpl.
  - reflexivity.
  - destruct (c (cW st)) eqn:E.
    + rewrite (dial_attached _ _ _ E). destruct (underlying (dialing ex)); reflexivity.
    + rewrite (dial_free _ _ E). destruct (underlying (dialing ex)); reflexivity.
Qed.

Lemma do_loop_S srv fuel reqs rq :
  do_loop srv (S fuel) reqs rq =
    bind (send (srv (length reqs) rq)) (fun r =>
      match r with
      | inl e => ret (None, Some e)
      | inr rs =>
          match redirect rs with
          | None => ret (Some rs, None)
          | Some loc =>
              bind (checkRedirect (mkRequest loc (Some rs)) (reqs ++ [rq]))
                (fun err => match err with
                            | Some e => ret (Some rs, Some e)
                            | None => do_loop srv fuel (reqs ++ [rq])
                                        (mkRequest loc (Some rs))
                            end)
          end
      end).
Proof. reflexivity. Qed.

Lemma checkRedirect_run rq via st :
  checkRedirect rq via st =
    (Ret (if (10 <=? Z.of_nat (length via))%Z
          then Some "stopped after 10 redirects" else None),
     mkState (mkConnWrapper (c (cW st)) [] [])
             (calls st ++ [mkCall rq (Response_ rq) (req (cW st)) (resp (cW st))])
             (net st)).
Proof.
  unfold checkRedirect, bind, triggerCallback.
  destruct (10 <=? Z.of_nat (length via))%Z; reflexivity.
Qed.

(** One more round of fuel changes nothing once the fuel exceeds the number
    of requests the hook still allows. *)
Lemma do_loop_fuel srv fuel : forall reqs rq st,
  (10 - length reqs < fuel)%nat ->
  do_loop srv (S fuel) reqs rq st = do_loop srv fuel reqs rq st.
Proof.
  induction fuel as [|fuel IH]; intros reqs rq st Hf; [lia|].
  rewrite (do_loop_S srv (S fuel)), (do_loop_S srv fuel). unfold bind at 1 3.
  destruct (send (srv (length reqs) rq) st) as [[[e|rs]|msg] st1]; try reflexivity.
  destruct (redirect rs) as [loc|]; [|reflexivity].
  unfold bind. rewrite checkRedirect_run.
  destruct (10 <=? Z.of_nat (length (reqs ++ [rq])))%Z eqn:E; [reflexivity|].
  apply Z.leb_gt in E. apply IH.
  rewrite length_app in *. change (length [rq]) with 1%nat in *. lia.
Qed.

Lemma send_connects ex st :
  connects (attached st) ex = true ->
  exists st1,
    send ex st = (Ret (answer ex), st1) /\
    calls st1 = calls st /\ attached st1 = true.
Proof.
  unfold connects, attached, send, bind, get. simpl.
  destruct (c (cW st)) as [old|] eqn:Hc.
  - intros ->. simpl. eexists. split; [reflexivity|]. simpl.
    rewrite Hc. split; reflexivity.
  - rewrite andb_false_r. rewrite (dial_free _ _ Hc).
    destruct (underlying (dialing ex)) as [e|conn]; [discriminate|]. intros _.
    eexists. split; [reflexivity|]. simpl. split; reflexivity.
Qed.

Lemma redirectsFor_hop srv rq st n i :
  redirectsFor srv rq st n = true -> (i < n)%nat ->
  isRedirect (answer (hopExchange srv rq i)) = true /\
  hopConnects srv rq st i = true.
Proof.
  unfold redirectsFor. intros H Hi.
  rewrite List.forallb_forall in H.
  apply andb_true_iff, (H i), in_seq. lia.
Qed.

Lemma isRedirect_inv a :
  isRedirect a = true -> exists rs loc, a = inr rs /\ redirect rs = Some loc.
Proof.
  destruct a as [e|rs]; simpl; [discriminate|].
  destruct (redirect rs) as [loc|] eqn:E; [|discriminate].
  intros _. exists rs, loc. split; [reflexivity|exact E].
Qed.

(** One round of the loop on a redirect answer: the hook is given the
    answer and the request built from it, then the loop goes on with that
    request, or ends when the hook has seen ten requests. *)
Lemma do_loop_follow srv rq0 fuel reqs st :
  isRedirect (answer (hopExchange srv rq0 (length reqs))) = true ->
  connects (attached st) (hopExchange srv rq0 (length reqs)) = true ->
  exists call st1,
    callOfHop srv rq0 (length reqs) call /\
    calls st1 = calls st ++ [call] /\ attached st1 = true /\
    do_loop srv (S fuel) reqs (hopRequest srv rq0 (length reqs)) st =
      if (10 <=? Z.of_nat (S (length reqs)))%Z
      then (Ret (Response_ (hopRequest srv rq0 (S (length reqs))),
                 Some "stopped after 10 redirects"), st1)
      else do_loop srv fuel (reqs ++ [hopRequest srv rq0 (length reqs)])
                   (hopRequest srv rq0 (S (length reqs))) st1.
Proof.
  intros Hr Hc.
  destruct (send_connects _ st Hc) as (st1 & Hs & Hcalls & Hatt).
  destruct (isRedirect_inv _ Hr) as (rs & loc & Ha & Hl).
  unfold hopExchange in *.
  exists (mkCall (mkRequest loc (Some rs)) (Some rs) (req (cW st1)) (resp (cW st1))),
         (mkState (mkConnWrapper (c (cW st1)) [] [])
                  (calls st1 ++ [mkCall (mkRequest loc (Some rs)) (Some rs)
                                        (req (cW st1)) (resp (cW st1))])
                  (net st1)).
  split; [unfold callOfHop, hopExchange; rewrite Ha, Hl; split; reflexivity|].
  split; [simpl; rewrite Hcalls; reflexivity|].
  split; [exact Hatt|].
  rewrite do_loop_S. unfold bind at 1. rewrite Hs, Ha, Hl.
  unfold bind. rewrite checkRedirect_run.
  assert (Hlen : length (reqs ++ [hopRequest srv rq0 (length reqs)])
                 = S (length reqs)) by (rewrite length_app; simpl; lia).
  rewrite Hlen. cbn [hopRequest]. rewrite Ha, Hl. cbn [Response_].
  destruct (10 <=? Z.of_nat (S (length reqs)))%Z; reflexivity.
Qed.

(** [k] redirects in a row, none of them the tenth: the loop has made [k]
    callbacks, one per hop, and stands before the request of hop [k]. *)
Lemma do_loop_redirects srv rq0 st0 n (H : redirectsFor srv rq0 st0 n = true) :
  forall k fuel reqs st,
    (length reqs + k <= n)%nat -> (length reqs + k <= 9)%nat ->
    (if Nat.eqb (length reqs) 0 then attached st = attached st0
     else attached st = true) ->
    exists new st1 reqs1,
      length new = k /\ calls st1 = calls st ++ new /\
      length reqs1 = (length reqs + k)%nat /\
      (if Nat.eqb (length reqs1) 0 then attached st1 = attached st0
       else attached st1 = true) /\
      (forall j call, new !! j = Some call ->
                      callOfHop srv rq0 (length reqs + j) call) /\
      do_loop srv (k + fuel) reqs (hopRequest srv rq0 (length reqs)) st =
        do_loop srv fuel reqs1 (hopRequest srv rq0 (length reqs1)) st1.
Proof.
  induction k as [|k IH]; intros fuel reqs st Hn H9 Hatt.
  - exists [], st, reqs. rewrite app_nil_r, Nat.add_0_r.
    repeat split; try assumption. intros j call Hj. destruct j; discriminate.
  - destruct (redirectsFor_hop srv rq0 st0 n (length reqs) H ltac:(lia))
      as [Hr Hc].
    assert (Hc' : connects (attached st) (hopExchange srv rq0 (length reqs)) = true).
    { unfold hopConnects in Hc. destruct (Nat.eqb (length reqs) 0);
        rewrite Hatt; exact Hc. }
    destruct (do_loop_follow srv rq0 (k + fuel) reqs st Hr Hc')
      as (call & st1 & Hcall & Hcalls & Hatt1 & Hstep).
    replace (10 <=? Z.of_nat (S (length reqs)))%Z with false in Hstep
      by (symmetry; apply Z.leb_gt; lia).
    assert (Hlen : length (reqs ++ [hopRequest srv rq0 (length reqs)])
                   = S (length reqs)) by (rewrite length_app; simpl; lia).
    destruct (IH fuel (reqs ++ [hopRequest srv rq0 (length reqs)]) st1)
      as (new & st2 & reqs2 & Hl & Hc2 & Hl2 & Ha2 & Hhops & Hrun);
      [rewrite Hlen; lia | rewrite Hlen; lia | rewrite Hlen; exact Hatt1 |].
    rewrite Hlen in *.
    exists (call :: new), st2, reqs2.
    split; [simpl; lia|].
    split; [rewrite Hc2, Hcalls, <- app_assoc; reflexivity|].
    split; [lia|]. split; [exact Ha2|]. split.
    + intros [|j] c' Hj; simpl in Hj.
      * injection Hj as <-. rewrite Nat.add_0_r. exact Hcall.
      * replace (length reqs + S j)%nat with (S (length reqs) + j)%nat by lia.
        exact (Hhops j c' Hj).
    + change (S k + fuel)%nat with (S (k + fuel)). rewrite Hstep. exact Hrun.
Qed.

(** C10 (amended). Once the shared wrapper holds a connection it holds it
    for good: no operation of the client, [Close] included, clears or
    replaces it, and no further connection is attached; from then on a dial
    whose underlying dial succeeds panics with the
    already-contains-a-connection fault, and a dial whose underlying dial
    fails returns that error without panicking. *)
Theorem attached_connection_is_final (st : state) (old : Conn) :
  c (cW st) = Some old ->
  (forall ops, c (cW (runOps ops st)) = Some old /\
               attaches (runOps ops st) = attaches st) /\
  (forall d conn, underlying d = inr conn ->
     exists st', dial d st = (Panic "connWrapper already contains a connection", st') /\
                 c (cW st') = Some old) /\
  (forall d e, underlying d = inl e ->
     exists st', dial d st = (Ret (inl e), st') /\ c (cW st') = Some old).
Proof.
  intros Hc. split; [|split].
  - intros ops. apply evolves_attached; [apply evolves_runOps|exact Hc].
  - intros d conn Hu. rewrite (dial_attached d st old Hc), Hu.
    eexists. split; [reflexivity|exact Hc].
  - intros d e Hu. rewrite (dial_attached d st old Hc), Hu.
    eexists. split; [reflexivity|exact Hc].
Qed.

Lemma attached_connection_is_final_witness :
  c (cW (snd (dial plainOK foo_state))) = Some conn0 /\
  (c (cW (runOps [OpClose; OpDial tlsOK] (snd (dial plainOK foo_state)))) = Some conn0 /\
   attaches (runOps [OpClose; OpDial tlsOK] (snd (dial plainOK foo_state)))
     = attaches (snd (dial plainOK foo_state))).
Proof.
  split; [reflexivity|].
  apply (proj1 (attached_connection_is_final
                  (snd (dial plainOK foo_state)) conn0 eq_refl)).
Defined.

(** C10 (as stated) fails: after a first successful dial, a dial whose
    underlying dial is refused does not panic; it returns the error. *)
Lemma refused_dial_after_attach_returns :
  c (cW (snd (dial plainOK foo_state))) = Some conn0 /\
  fst (dial plainRefused (snd (dial plainOK foo_state)))
    = Ret (inl "connection refused").
Proof. split; reflexivity. Qed.

(** C4 (amended). On a dial, plain or TLS, whose underlying dial succeeds
    while the wrapper of the client is empty, the one wrapper created with
    the client is attached to the new connection after the underlying dial
    function has returned, for TLS after the handshake; its two buffers
    are the ones it had before the dial and no callback is made.  When the
    wrapper already holds a connection the dial panics instead. *)
Theorem dial_attaches_shared_wrapper (d : dialEnv) (st : state) (conn : Conn) :
  underlying d = inr conn ->
  (c (cW st) = None ->
     dial d st =
       (Ret (inr TheConnWrapper),
        mkState (mkConnWrapper (Some conn) (resp (cW st)) (req (cW st)))
                (calls st)
                (net st ++ underlyingEvents d ++ [EvAttach conn]))) /\
  (kind d = TLS -> In EvHandshake (underlyingEvents d)) /\
  (forall old, c (cW st) = Some old ->
     fst (dial d st) = Panic "connWrapper already contains a connection").
Proof.
  intros Hu. split; [|split].
  - intros Hc. rewrite (dial_free d st Hc), Hu. reflexivity.
  - intros K. unfold underlying, underlyingEvents in *. rewrite K in *.
    destruct (dialRes d); [discriminate|]. simpl. auto.
  - intros old Hc. rewrite (dial_attached d st old Hc), Hu. reflexivity.
Qed.

Lemma dial_attaches_shared_wrapper_witness :
  underlying tlsOK = inr conn1 /\
  dial tlsOK foo_state =
    (Ret (inr TheConnWrapper),
     mkState (mkConnWrapper (Some conn1) [] []) []
             [EvTlsDial "example.org:443"; EvHandshake; EvAttach conn1]).
Proof.
  split; [reflexivity|].
  apply (proj1 (dial_attaches_shared_wrapper tlsOK foo_state conn1 eq_refl)).
  reflexivity.
Defined.

(** C4 (as stated) fails: on a TLS dial the handshake is over before the
    wrapper is attached, and the second dial of a client gets no wrapper
    at all: the one wrapper is still taken by the first connection. *)
Lemma tls_handshake_precedes_attach :
  net (snd (dial tlsOK foo_state))
    = [EvTlsDial "example.org:443"; EvHandshake; EvAttach conn1] /\
  fst (dial plainOK (snd (dial tlsOK foo_state)))
    = Panic "connWrapper already contains a connection" /\
  c (cW (snd (dial plainOK (snd (dial tlsOK foo_state))))) = Some conn1.
Proof. repeat split; reflexivity. Qed.

(** C2. A request answered without a redirect never reaches the capture
    callback, whatever the dial does and whatever bytes are exchanged: the
    hook that makes the call runs before a redirect is followed, and
    [RoundTrip] makes none.  On the sample server the request completes
    with its response and the callback has not been invoked. *)
Theorem terminal_hop_has_no_callback :
  (forall (reuse : nat -> Request -> bool) (d : nat -> Request -> dialEnv)
          (sent received : nat -> Request -> bytes) (code : Z) (rq : Request),
     calls (snd (RoundTrip
                   (fun i r => mkExchange (reuse i r) (d i r) (sent i r) (received i r)
                                          (inr (mkResponse code None)))
                   rq foo_state)) = []) /\
  RoundTrip (serverOf (fun _ => ok200)) (mkRequest "http://example.org/" None)
            foo_state
  = (Ret (Some ok200, None),
     mkState (mkConnWrapper (Some conn0) [x48] [x47]) []
             [EvDial "example.org:80"; EvAttach conn0]).
Proof.
  split; [|reflexivity].
  intros reuse d sent received code rq. unfold RoundTrip, Do.
  rewrite do_loop_S. unfold bind at 2. simpl length. unfold bind at 1.
  set (ex := mkExchange (reuse 0%nat rq) (d 0%nat rq) (sent 0%nat rq)
                        (received 0%nat rq) (inr (mkResponse code None))).
  pose proof (send_keeps_calls ex foo_state) as Hc.
  assert (Hs : forall rs, fst (send ex foo_state) = Ret (inr rs) ->
                          rs = mkResponse code None).
  { unfold send, bind, get. simpl. rewrite andb_false_r.
    rewrite (dial_free _ foo_state eq_refl).
    destruct (underlying _) as [e'|conn]; simpl; congruence. }
  destruct (send ex foo_state) as [[[e'|rs]|msg] st1]; simpl in *;
    [exact Hc| |exact Hc].
  rewrite (Hs rs eq_refl). simpl. exact Hc.
Qed.

(** C5 (amended). When the chain of a call is redirected ten times in a
    row and each of these ten requests travels on the one connection of the
    client (the first is handed the connection the client holds, or dials
    with success when the client holds none; the later ones are handed it
    idle), the call returns, without a panic, the error of the hook and no
    response, and by then the callback has been invoked ten more times, the
    [i]-th time with the answer to the request of hop [i] and the request
    the client built from that answer. *)
Theorem redirect_limit_after_ten_callbacks (srv : server) (rq : Request)
    (st : state) :
  redirectsFor srv rq st 10 = true ->
  exists st' new,
    RoundTrip srv rq st
      = (Ret (None, Some "stopped after 10 redirects"), st') /\
    calls st' = calls st ++ new /\ length new = 10%nat /\
    forall i call, new !! i = Some call -> callOfHop srv rq i call.
Proof.
  intros H.
  destruct (do_loop_redirects srv rq st 10 H 9 3 [] st)
    as (new & st1 & reqs1 & Hl & Hc & Hl1 & Ha & Hhops & Hrun);
    [simpl; lia | simpl; lia | reflexivity |].
  simpl in Hl1. rewrite Hl1 in Ha. simpl in Ha.
  destruct (redirectsFor_hop srv rq st 10 9 H ltac:(lia)) as [Hr H9].
  assert (H9' : connects (attached st1) (hopExchange srv rq (length reqs1)) = true)
    by (rewrite Ha, Hl1; exact H9).
  rewrite <- Hl1 in Hr.
  destruct (do_loop_follow srv rq 2 reqs1 st1 Hr H9')
    as (call & st2 & Hcall & Hcalls & _ & Hstep).
  rewrite Hl1 in Hstep, Hcall. change (10 <=? Z.of_nat 10)%Z with true in Hstep.
  cbv iota in Hstep.
  exists st2, (new ++ [call]). split; [|split; [|split]].
  - unfold RoundTrip, Do, bind. change 12%nat with (9 + 3)%nat.
    change (hopRequest srv rq (length (@nil Request))) with rq in Hrun.
    rewrite Hrun, Hl1, Hstep. reflexivity.
  - rewrite Hcalls, Hc, <- app_assoc. reflexivity.
  - rewrite length_app, Hl. reflexivity.
  - intros i c' Hi. destruct (decide (i < length new)%nat) as [Hlt|Hge].
    + rewrite lookup_app_l in Hi by exact Hlt. exact (Hhops i c' Hi).
    + rewrite lookup_app_r in Hi by lia.
      destruct (i - length new)%nat as [|m] eqn:E; simpl in Hi; [|discriminate].
      injection Hi as <-. replace i with 9%nat by lia. exact Hcall.
Qed.

Lemma redirect_limit_after_ten_callbacks_witness :
  redirectsFor (serverOf (fun _ => found302))
               (mkRequest "http://example.org/" None) foo_state 10 = true /\
  exists st' new,
    RoundTrip (serverOf (fun _ => found302)) (mkRequest "http://example.org/" None)
              foo_state
      = (Ret (None, Some "stopped after 10 redirects"), st') /\
    calls st' = calls foo_state ++ new /\ length new = 10%nat /\
    forall i call, new !! i = Some call ->
      callOfHop (serverOf (fun _ => found302))
                (mkRequest "http://example.org/" None) i call.
Proof.
  split; [reflexivity|].
  apply (redirect_limit_after_ten_callbacks (serverOf (fun _ => found302))
           (mkRequest "http://example.org/" None) foo_state).
  reflexivity.
Defined.

(** C5 (as stated) fails: a server that redirects eleven times and more,
    each time to a host that needs a new connection, never gets to the
    limit: the second dial finds the wrapper taken and the call ends in its
    panic, after a single invocation of the callback. *)
Lemma redirect_chain_across_hosts_panics :
  forallb (fun i => isRedirect
                      (answer (hopExchange redirectsAcrossHosts
                                           (mkRequest "http://example.org/" None) i)))
          (seq 0 11) = true /\
  fst (RoundTrip redirectsAcrossHosts (mkRequest "http://example.org/" None)
                 foo_state)
    = Panic "connWrapper already contains a connection" /\
  length (calls (snd (RoundTrip redirectsAcrossHosts
                                (mkRequest "http://example.org/" None) foo_state)))
    = 1%nat.
Proof. repeat split; reflexivity. Qed.

End TransportFacts.

(** ** The recorder *)
Module RecorderFacts.
Import Recorder.

(** *** The header block *)

Lemma bytes_Equal_eq a : forall b, bytes_Equal a b = true <-> a = b.
Proof.
  induction a as [|x a IH]; intros [|y b]; simpl; split; try congruence; try reflexivity.
  - intros H. apply andb_true_iff in H as [H1 H2].
    apply Byte.byte_dec_bl in H1. apply IH in H2. congruence.
  - intros H. inversion H; subst. apply andb_true_iff. split.
    + apply Byte.byte_dec_lb. reflexivity.
    + apply IH. reflexivity.
Qed.

Lemma slice_delimiter data i :
  slice data i (i + 4) = pattern <-> delimiterAt data i.
Proof.
  unfold slice, delimiterAt. replace (i + 4 - i)%nat with 4%nat by lia. split.
  - intros H. exists (drop 4 (drop i data)). split.
    + rewrite <- H. rewrite (take_drop 4 (drop i data)), take_drop. reflexivity.
    + destruct (le_lt_dec i (length data)) as [Hl|Hl]; [exact Hl|].
      rewrite drop_ge in H by lia. discriminate.
  - intros (post & H & Hl). rewrite H at 1.
    rewrite drop_app_length'; [reflexivity|]. rewrite length_take. lia.
Qed.

Lemma delimiterAt_length data i : delimiterAt data i -> (i + 4 <= length data)%nat.
Proof.
  intros (post & H & Hl). rewrite H. rewrite !length_app, length_take. simpl. lia.
Qed.

Lemma scan_absent data : forall n i,
  (forall j, (i <= j)%nat -> ~ delimiterAt data j) ->
  scan data n i = Ret 0%nat \/ scan data n i = Panic "cant find header data".
Proof.
  induction n as [|n IH]; intros i H; simpl; [left; reflexivity|].
  destruct (length data <? i + 4)%nat; [right; reflexivity|].
  destruct (bytes_Equal (slice data i (i + 4)) pattern) eqn:E.
  - apply bytes_Equal_eq, slice_delimiter in E. destruct (H i); [lia|exact E].
  - apply IH. intros j Hj. apply H. lia.
Qed.

Lemma scan_first data k : forall n i,
  (i <= k)%nat -> (k - i < n)%nat -> delimiterAt data k ->
  (forall j, (i <= j < k)%nat -> ~ delimiterAt data j) ->
  scan data n i = Ret (k + 4)%nat.
Proof.
  induction n as [|n IH]; intros i Hik Hn Hk Hfirst; [lia|]. simpl.
  pose proof (delimiterAt_length data k Hk) as Hlen.
  destruct (length data <? i + 4)%nat eqn:El; [apply Nat.ltb_lt in El; lia|].
  destruct (bytes_Equal (slice data i (i + 4)) pattern) eqn:E.
  - apply bytes_Equal_eq, slice_delimiter in E.
    destruct (Nat.eq_dec i k) as [->|Hne]; [reflexivity|].
    destruct (Hfirst i); [lia|exact E].
  - destruct (Nat.eq_dec i k) as [->|Hne].
    + apply slice_delimiter, bytes_Equal_eq in Hk. congruence.
    + apply IH; [lia|lia|exact Hk|]. intros j Hj. apply Hfirst. lia.
Qed.

Lemma headerEnd_absent data :
  (forall j, ~ delimiterAt data j) -> headerEnd data = Panic "cant find header data".
Proof.
  intros H. unfold headerEnd.
  destruct (scan_absent data (length data) 0 (fun j _ => H j)) as [-> | ->]; reflexivity.
Qed.

Lemma headerEnd_first data k :
  delimiterAt data k -> (forall j, (j < k)%nat -> ~ delimiterAt data j) ->
  headerEnd data = Ret (k + 4)%nat.
Proof.
  intros Hk Hfirst. unfold headerEnd.
  pose proof (delimiterAt_length data k Hk).
  rewrite (scan_first data k (length data) 0); [|lia|lia|exact Hk|intros j Hj; apply Hfirst; lia].
  replace (k + 4)%nat with (Datatypes.S (k + 3)) by lia. reflexivity.
Qed.

Lemma delimiterAt_split data pre post :
  data = pre ++ pattern ++ post -> delimiterAt data (length pre).
Proof.
  intros ->. exists post. split.
  - rewrite take_app_length. reflexivity.
  - rewrite length_app. lia.
Qed.

Lemma delimiterAt_inv data i :
  delimiterAt data i -> exists pre post, data = pre ++ pattern ++ post /\ length pre = i.
Proof.
  intros (post & H & Hl). exists (take i data), post. split; [exact H|].
  rewrite length_take. lia.
Qed.

(** *** The record writer *)

(** Symbolic execution of a block: unfold the calls, then split on every
    answer of the operating system. *)
Ltac unfold_block :=
  unfold openFirst, rotate, writeOne, shutdown, closeChunk,
    os_Create, NewWriter, WriteInfoRecord, WriteRecord, os_Rename,
    attempt, perform, bind, get, ret.

Ltac split_fails :=
  repeat match goal with
         | |- context [fails ?w ?t ?e] => destruct (fails w t e); simpl
         end.

Section Run.
Variable w : World.
Variable settings : RotatorSettings.

Local Abbreviation path := (Recorder.path w settings).
Local Abbreviation paths := (Recorder.paths w settings).
Local Abbreviation anyPaths := (Recorder.anyPaths w settings).

Ltac split_compression :=
  destruct (String.eqb (Compression settings) "GZIP");
  destruct (String.eqb (Compression settings) "ZSTD");
  destruct (String.eqb (Compression settings) ""); simpl.

(** *** The files created *)

Lemma createdPaths_app tr tr' :
  createdPaths (tr ++ tr') = createdPaths tr ++ createdPaths tr'.
Proof. unfold createdPaths. apply flat_map_app. Qed.

Lemma paths_next n tr f :
  paths n tr -> paths (Datatypes.S n) (tr ++ [OsCreate f (path (Datatypes.S n))]).
Proof.
  unfold paths. intros H. rewrite createdPaths_app, H, seq_S, map_app. reflexivity.
Qed.

Lemma paths_other n tr e :
  isCreate e = false -> paths n tr -> paths n (tr ++ [e]).
Proof.
  unfold paths. intros He H. rewrite createdPaths_app, H.
  destruct e; try discriminate; simpl; apply app_nil_r.
Qed.

Ltac paths_tac :=
  repeat first
    [ assumption
    | apply paths_other; [reflexivity|]
    | apply paths_next ].

Lemma wrap64_small z : (- 2 ^ 63 <= z < 2 ^ 63)%Z -> wrap64 z = z.
Proof.
  intros H. unfold wrap64. rewrite Z.mod_small; lia.
Qed.

Lemma openFirst_paths :
  hoare (fun tr => tr = []) (openFirst w settings)
        (fun v tr => paths 1 tr /\ serial v = 1%Z)
        (fun tr => exists n, (n <= 1)%nat /\ paths n tr).
Proof.
  intros tr ->. unfold_block; simpl; split_compression; split_fails;
    try (split; [|reflexivity]);
    try (exists 0%nat; split; [lia|reflexivity]);
    try (exists 1%nat; split; [lia|]);
    rewrite <- ?app_assoc; simpl; reflexivity.
Qed.


Lemma rotate_paths n v :
  (Z.of_nat n + 1 < 2 ^ 63)%Z -> serial v = Z.of_nat n ->
  hoare (paths n) (rotate w settings v)
        (fun v' tr => paths (Datatypes.S n) tr /\ serial v' = Z.of_nat (Datatypes.S n))
        (anyPaths (Datatypes.S n)).
Proof.
  intros Hn Hv.
  assert (Hs : wrap64 (serial v + 1) = Z.of_nat (Datatypes.S n))
    by (rewrite Hv, wrap64_small; lia).
  intros tr H. unfold_block; simpl. rewrite Hs. fold (path (Datatypes.S n)).
  split_compression; split_fails;
    try (split; [|reflexivity]);
    first [ solve [paths_tac]
          | exists n; split; [lia|]; solve [paths_tac]
          | exists (Datatypes.S n); split; [lia|]; solve [paths_tac] ].
Qed.

Lemma writeOne_paths n t v r :
  hoare (paths n) (writeOne w settings t v r)
        (fun v' tr => paths n tr /\ serial v' = serial v)
        (paths n).
Proof.
  intros tr H. unfold_block; simpl. split_compression; split_fails;
    try (split; [|reflexivity]); solve [paths_tac].
Qed.

Lemma writeRecords_paths n t rs : forall v,
  hoare (paths n) (forRange (writeOne w settings t) rs v)
        (fun v' tr => paths n tr /\ serial v' = serial v)
        (paths n).
Proof.
  induction rs as [|r rs IH]; intros v; simpl.
  - apply hoare_ret. auto.
  - eapply hoare_bind; [apply writeOne_paths|].
    intros v'. intros tr [H Hv]. specialize (IH v' tr H).
    destruct (forRange _ rs v' tr) as [[v2|msg] tr2]; [|exact IH].
    destruct IH as [IH1 IH2]. split; [exact IH1|congruence].
Qed.

Lemma writeBatch_paths n v b :
  (Z.of_nat n + 1 < 2 ^ 63)%Z -> serial v = Z.of_nat n ->
  hoare (paths n) (writeBatch w settings v b)
        (fun v' tr => exists n', (n' <= Datatypes.S n)%nat /\ (n <= n')%nat /\
                                 paths n' tr /\ serial v' = Z.of_nat n')
        (anyPaths (Datatypes.S n)).
Proof.
  intros Hn Hv tr H. unfold writeBatch. unfold bind at 1, get.
  unfold bind at 1.
  destruct (isFileSizeExceeded w tr _ _).
  - pose proof (rotate_paths n v Hn Hv tr H) as Hr.
    destruct (rotate w settings v tr) as [[v1|msg] tr1]; [|exact Hr].
    destruct Hr as [H1 Hv1]. unfold bind at 1.
    pose proof (writeRecords_paths (Datatypes.S n) (CaptureTime b) (Records b) v1 tr1 H1) as Hw.
    destruct (forRange _ (Records b) v1 tr1) as [[v2|msg] tr2].
    + destruct Hw as [H2 Hv2]. unfold bind, perform, ret.
      exists (Datatypes.S n). split; [lia|split; [lia|split; [paths_tac|simpl; congruence]]].
    + exists (Datatypes.S n). split; [lia|exact Hw].
  - unfold ret at 1. unfold bind at 1.
    pose proof (writeRecords_paths n (CaptureTime b) (Records b) v tr H) as Hw.
    destruct (forRange _ (Records b) v tr) as [[v2|msg] tr2].
    + destruct Hw as [H2 Hv2]. unfold bind, perform, ret.
      exists n. split; [lia|split; [lia|split; [paths_tac|simpl; congruence]]].
    + exists n. split; [lia|exact Hw].
Qed.

Lemma writeBatches_paths bs : forall n v,
  (Z.of_nat n + Z.of_nat (length bs) < 2 ^ 63)%Z -> serial v = Z.of_nat n ->
  hoare (paths n) (forRange (writeBatch w settings) bs v)
        (fun v' tr => exists n', (n <= n' <= n + length bs)%nat /\ paths n' tr /\
                                 serial v' = Z.of_nat n')
        (anyPaths (n + length bs)).
Proof.
  induction bs as [|b bs IH]; intros n v Hn Hv; simpl.
  - apply hoare_ret. intros st H. exists n. split; [lia|split; [exact H|exact Hv]].
  - simpl length in Hn. intros tr H.
    pose proof (writeBatch_paths n v b ltac:(lia) Hv tr H) as Hb.
    unfold bind. destruct (writeBatch w settings v b tr) as [[v1|msg] tr1].
    + destruct Hb as (n1 & Hle & Hge & H1 & Hv1).
      pose proof (IH n1 v1 ltac:(lia) Hv1 tr1 H1) as Hrest.
      destruct (forRange _ bs v1 tr1) as [[v2|msg] tr2].
      * destruct Hrest as (n2 & Hle2 & H2 & Hv2). exists n2.
        split; [lia|split; [exact H2|exact Hv2]].
      * destruct Hrest as (n2 & Hle2 & H2). exists n2. split; [lia|exact H2].
    + destruct Hb as (n1 & Hle & H1). exists n1. split; [lia|exact H1].
Qed.

Lemma shutdown_paths n v :
  hoare (paths n) (shutdown w settings v) (fun _ => paths n) (paths n).
Proof.
  intros tr H. unfold_block; simpl. split_compression; split_fails; solve [paths_tac].
Qed.

Lemma recordWriter_paths records :
  (Z.of_nat (length records) < 2 ^ 63 - 1)%Z ->
  exists n, (n <= 1 + length records)%nat /\
            paths n (snd (recordWriter w settings records [])) /\
            (returned (fst (recordWriter w settings records [])) = true -> (1 <= n)%nat).
Proof.
  intros Hn. unfold recordWriter, bind.
  pose proof (openFirst_paths [] eq_refl) as Ho.
  destruct (openFirst w settings []) as [[v|msg] tr].
  - destruct Ho as [H1 Hv].
    pose proof (writeBatches_paths records 1 v ltac:(lia) Hv tr H1) as Hb.
    destruct (forRange _ records v tr) as [[v1|msg] tr1].
    + destruct Hb as (n & Hle & H & Hv1).
      pose proof (shutdown_paths n v1 tr1 H) as Hs.
      destruct (shutdown w settings v1 tr1) as [[[]|msg] tr2];
        exists n; (split; [lia|split; [exact Hs|simpl; intros; lia]]).
    + destruct Hb as (n & Hle & H). exists n.
      split; [lia|split; [exact H|simpl; discriminate]].
  - destruct Ho as (n & Hle & H). exists n.
    split; [lia|split; [exact H|simpl; discriminate]].
Qed.

(** *** The records written *)

Lemma writtenRecords_app tr tr' :
  writtenRecords (tr ++ tr') = writtenRecords tr ++ writtenRecords tr'.
Proof. unfold writtenRecords. apply flat_map_app. Qed.

Lemma infoIDs_app tr tr' : infoIDs (tr ++ tr') = infoIDs tr ++ infoIDs tr'.
Proof. unfold infoIDs. apply flat_map_app. Qed.

Lemma head_app_Some {A} (l l' : list A) x : head l = Some x -> head (l ++ l') = Some x.
Proof. destruct l; simpl; [discriminate|auto]. Qed.

Lemma wrote_other id X tr e :
  isWriteRecord e = false -> wrote id X tr -> wrote id X (tr ++ [e]).
Proof.
  intros He [H1 H2]. split.
  - rewrite writtenRecords_app, H1. destruct e; try discriminate; apply app_nil_r.
  - rewrite infoIDs_app. apply head_app_Some, H2.
Qed.

Lemma wrote_record id X tr wr r :
  wrote id X tr -> wrote id (X ++ [r]) (tr ++ [EvWriteRecord wr r]).
Proof.
  intros [H1 H2]. split.
  - rewrite writtenRecords_app, H1. reflexivity.
  - rewrite infoIDs_app. apply head_app_Some, H2.
Qed.

Ltac wrote_tac :=
  repeat first
    [ assumption
    | apply wrote_record
    | apply wrote_other; [reflexivity|] ].

Lemma openFirst_wrote :
  hoare (fun tr => tr = []) (openFirst w settings)
        (fun v tr => wrote (currentWarcinfoRecordID v) [] tr)
        (fun tr => writtenRecords tr = []).
Proof.
  intros tr ->. unfold_block; simpl; split_compression; split_fails;
    first [ reflexivity | split; reflexivity ].
Qed.

Lemma rotate_wrote id X v :
  hoare (wrote id X) (rotate w settings v)
        (fun v' tr => wrote id X tr /\
                      currentWarcinfoRecordID v' = currentWarcinfoRecordID v)
        (wrote id X).
Proof.
  intros tr H. unfold_block; simpl. split_compression; split_fails;
    try (split; [|reflexivity]); solve [wrote_tac].
Qed.

Lemma writeOne_wrote id X t v r :
  currentWarcinfoRecordID v = id ->
  hoare (wrote id X) (writeOne w settings t v r)
        (fun v' tr => wrote id (X ++ [stamp t id r]) tr /\
                      currentWarcinfoRecordID v' = id)
        (wrote id X).
Proof.
  intros Hv tr H. unfold_block; simpl. rewrite Hv. split_compression; split_fails;
    try (split; [|reflexivity]); solve [wrote_tac].
Qed.

Lemma writeRecords_wrote id t rs : forall X v,
  currentWarcinfoRecordID v = id ->
  hoare (wrote id X) (forRange (writeOne w settings t) rs v)
        (fun v' tr => wrote id (X ++ map (stamp t id) rs) tr /\
                      currentWarcinfoRecordID v' = id)
        (fun tr => exists k, wrote id (X ++ map (stamp t id) (take k rs)) tr).
Proof.
  induction rs as [|r rs IH]; intros X v Hv; simpl.
  - apply hoare_ret. intros tr H. rewrite app_nil_r. auto.
  - intros tr H. pose proof (writeOne_wrote id X t v r Hv tr H) as H1.
    unfold bind. destruct (writeOne w settings t v r tr) as [[v1|msg] tr1].
    + destruct H1 as [H1 Hv1]. specialize (IH (X ++ [stamp t id r]) v1 Hv1 tr1 H1).
      destruct (forRange _ rs v1 tr1) as [[v2|msg] tr2].
      * rewrite <- app_assoc in IH. exact IH.
      * destruct IH as [k IH]. exists (Datatypes.S k). simpl.
        rewrite <- app_assoc in IH. exact IH.
    + exists 0%nat. simpl. rewrite app_nil_r. exact H1.
Qed.

Lemma writeBatch_wrote id X v b :
  currentWarcinfoRecordID v = id ->
  hoare (wrote id X) (writeBatch w settings v b)
        (fun v' tr => wrote id (X ++ stamped id [b]) tr /\
                      currentWarcinfoRecordID v' = id)
        (wrotePrefix id X (stamped id [b])).
Proof.
  intros Hv tr H. unfold stamped. simpl. rewrite app_nil_r.
  unfold writeBatch. unfold bind at 1, get. unfold bind at 1.
  assert (Hstart : forall v1 tr1, wrote id X tr1 -> currentWarcinfoRecordID v1 = id ->
    match bind (forRange (writeOne w settings (CaptureTime b)) (Records b) v1)
               (fun v2 => bind (perform (Flush (warcWriter v2))) (fun _ => ret v2)) tr1 with
    | (Ret v', tr') => wrote id (X ++ map (stamp (CaptureTime b) id) (Records b)) tr' /\
                       currentWarcinfoRecordID v' = id
    | (Panic _, tr') => wrotePrefix id X (map (stamp (CaptureTime b) id) (Records b)) tr'
    end).
  { intros v1 tr1 H1 Hv1. unfold bind at 1.
    pose proof (writeRecords_wrote id (CaptureTime b) (Records b) X v1 Hv1 tr1 H1) as Hw.
    destruct (forRange _ (Records b) v1 tr1) as [[v2|msg] tr2].
    - destruct Hw as [H2 Hv2]. unfold bind, perform, ret. split; [wrote_tac|exact Hv2].
    - destruct Hw as [k Hw]. eexists. split; [|exact Hw].
      exists (map (stamp (CaptureTime b) id) (drop k (Records b))).
      rewrite <- map_app, take_drop. reflexivity. }
  destruct (isFileSizeExceeded w tr _ _).
  - pose proof (rotate_wrote id X v tr H) as Hr.
    destruct (rotate w settings v tr) as [[v1|msg] tr1].
    + destruct Hr as [H1 Hv1]. apply Hstart; [exact H1|congruence].
    + exists []. split; [apply prefix_nil|]. rewrite app_nil_r. exact Hr.
  - unfold ret at 1. apply Hstart; assumption.
Qed.


Lemma stamped_app id bs bs' : stamped id (bs ++ bs') = stamped id bs ++ stamped id bs'.
Proof. unfold stamped. apply flat_map_app. Qed.

Lemma writeBatches_wrote id bs : forall X v,
  currentWarcinfoRecordID v = id ->
  hoare (wrote id X) (forRange (writeBatch w settings) bs v)
        (fun v' tr => wrote id (X ++ stamped id bs) tr /\
                      currentWarcinfoRecordID v' = id)
        (wrotePrefix id X (stamped id bs)).
Proof.
  induction bs as [|b bs IH]; intros X v Hv.
  - apply hoare_ret. intros tr H. simpl. rewrite app_nil_r. auto.
  - intros tr H. pose proof (writeBatch_wrote id X v b Hv tr H) as Hb.
    simpl forRange. unfold bind.
    change (b :: bs) with ([b] ++ bs). rewrite stamped_app.
    destruct (writeBatch w settings v b tr) as [[v1|msg] tr1].
    + destruct Hb as [H1 Hv1]. specialize (IH (X ++ stamped id [b]) v1 Hv1 tr1 H1).
      destruct (forRange _ bs v1 tr1) as [[v2|msg] tr2].
      * rewrite <- app_assoc in IH. exact IH.
      * destruct IH as (Z & HZ & IH). exists (stamped id [b] ++ Z).
        split; [apply prefix_app, HZ|]. rewrite <- app_assoc in IH. exact IH.
    + destruct Hb as (Z & HZ & Hb). exists Z. split; [apply prefix_app_r, HZ|exact Hb].
Qed.

Lemma shutdown_wrote id X v :
  hoare (wrote id X) (shutdown w settings v) (fun _ => wrote id X) (wrote id X).
Proof.
  intros tr H. unfold_block; simpl. split_compression; split_fails; solve [wrote_tac].
Qed.

(** Every record written carries the two fields stamped from its batch and
    from the identifier of the first info record of the run; a run that
    returns has written all records of all batches, in order. *)
Lemma recordWriter_wrote records :
  exists id,
    (writtenRecords (snd (recordWriter w settings records [])) = [] \/
     head (infoIDs (snd (recordWriter w settings records []))) = Some id) /\
    writtenRecords (snd (recordWriter w settings records []))
      `prefix_of` stamped id records /\
    (returned (fst (recordWriter w settings records [])) = true ->
     writtenRecords (snd (recordWriter w settings records [])) = stamped id records).
Proof.
  unfold recordWriter, bind.
  pose proof (openFirst_wrote [] eq_refl) as Ho.
  destruct (openFirst w settings []) as [[v|msg] tr].
  - exists (currentWarcinfoRecordID v).
    pose proof (writeBatches_wrote _ records [] v eq_refl tr Ho) as Hb.
    destruct (forRange _ records v tr) as [[v1|msg] tr1].
    + destruct Hb as [H1 Hv1]. pose proof (shutdown_wrote _ _ v1 tr1 H1) as Hs.
      destruct (shutdown w settings v1 tr1) as [[[]|msg] tr2]; simpl;
        destruct Hs as [Hs1 Hs2]; (split; [right; exact Hs2|]); rewrite Hs1; simpl;
        (split; [reflexivity|auto]).
    + destruct Hb as (Z & HZ & [H1 H2]). simpl in *.
      split; [right; exact H2|]. rewrite H1. split; [exact HZ|discriminate].
  - exists "". simpl. rewrite Ho.
    split; [left; reflexivity|]. split; [apply prefix_nil|discriminate].
Qed.

(** *** The frames of compressed files *)

Lemma diskOf_snoc tr e : diskOf (tr ++ [e]) = apply (diskOf tr) e.
Proof. unfold diskOf. rewrite fold_left_app. reflexivity. Qed.

Lemma items_snoc tr e : items (tr ++ [e]) = items tr ++ map snd (written e).
Proof.
  unfold items. rewrite flat_map_app, map_app. simpl. rewrite app_nil_r. reflexivity.
Qed.

Lemma framed_closeStream tr e wr :
  apply (diskOf tr) e = closeStream (diskOf tr) wr -> written e = [] ->
  framed tr -> framed (tr ++ [e]).
Proof.
  intros Ha Hw (HF & HS & HI). unfold framed.
  rewrite diskOf_snoc, items_snoc, Ha, Hw. simpl. rewrite app_nil_r.
  unfold closeStream. destruct (streams (diskOf tr) !! wr) as [s|] eqn:E; simpl.
  - pose proof (HS wr s E) as Hs. simpl in Hs. split; [|split].
    + apply Forall_app. split; [exact HF|]. constructor; [|constructor].
      rewrite Hs. simpl. lia.
    + apply map_Forall_delete, HS.
    + rewrite flat_map_app. simpl. rewrite Hs, !app_nil_r. exact HI.
  - auto.
Qed.

Lemma framed_other tr e : isWrite e = false -> framed tr -> framed (tr ++ [e]).
Proof.
  intros He H. destruct e; try discriminate;
    try (eapply framed_closeStream; [reflexivity|reflexivity|exact H]);
    destruct H as (HF & HS & HI); unfold framed;
    rewrite diskOf_snoc, items_snoc; simpl; rewrite ?app_nil_r;
    try (split; [exact HF|split; [exact HS|exact HI]]).
  split; [exact HF|split; [|exact HI]].
  apply map_Forall_insert_2; [reflexivity|exact HS].
Qed.

(** One record written the way the code does it: a writer of its own, the
    record, and the stream closed. *)
Lemma framed_cycle tr wr f name comp ew ec it :
  (forall d, apply d ew = mkDisk (alter (addToStream it) wr (streams d)) (frames d)) ->
  written ew = [(wr, it)] ->
  (forall d, apply d ec = closeStream d wr) -> written ec = [] ->
  framed tr ->
  framed (((tr ++ [EvNewWriter wr f name comp]) ++ [ew]) ++ [ec]).
Proof.
  intros Hew Hw Hec Hc (HF & HS & HI). unfold framed.
  rewrite !diskOf_snoc, !items_snoc, Hec, Hew, Hw, Hc. simpl.
  rewrite !app_nil_r. unfold closeStream. simpl.
  rewrite lookup_alter_eq, lookup_insert_eq. simpl. split; [|split].
  - apply Forall_app. split; [exact HF|]. constructor; [simpl; lia|constructor].
  - apply map_Forall_lookup. intros i x Hx.
    apply lookup_delete_Some in Hx as [Hne Hx].
    rewrite lookup_alter_ne, lookup_insert_ne in Hx by exact Hne.
    exact (HS i x Hx).
  - rewrite flat_map_app. simpl. rewrite ?app_nil_r, HI. reflexivity.
Qed.

Lemma framed_nil : framed [].
Proof.
  unfold framed. simpl. split; [constructor|split; [apply map_Forall_empty|reflexivity]].
Qed.

Ltac framed_tac :=
  repeat first
    [ assumption
    | apply framed_nil
    | eapply framed_cycle;
        [intros; reflexivity|reflexivity|intros; reflexivity|reflexivity|]
    | apply framed_other; [reflexivity|] ].

Section Compressed.
Hypothesis compressed :
  Compression settings = "GZIP" \/ Compression settings = "ZSTD".

Ltac run_compressed :=
  unfold_block; simpl;
  destruct compressed as [Hc|Hc]; rewrite Hc; simpl; split_fails.

Lemma openFirst_framed :
  hoare framed (openFirst w settings) (fun _ => framed) framed.
Proof. intros tr H. run_compressed; solve [framed_tac]. Qed.

Lemma rotate_framed v :
  hoare framed (rotate w settings v) (fun _ => framed) framed.
Proof. intros tr H. run_compressed; solve [framed_tac]. Qed.

Lemma writeOne_framed t v r :
  hoare framed (writeOne w settings t v r) (fun _ => framed) framed.
Proof. intros tr H. run_compressed; solve [framed_tac]. Qed.

Lemma shutdown_framed v :
  hoare framed (shutdown w settings v) (fun _ => framed) framed.
Proof. intros tr H. run_compressed; solve [framed_tac]. Qed.

Lemma forRange_inv {A V} (body : V -> A -> W V) (I : list event -> Prop) l :
  (forall v x, hoare I (body v x) (fun _ => I) I) ->
  forall v, hoare I (forRange body l v) (fun _ => I) I.
Proof.
  intros Hb. induction l as [|x l IH]; intros v; simpl.
  - apply hoare_ret. auto.
  - eapply hoare_bind with (Q := fun _ => I); [apply Hb|]. intros v'. apply IH.
Qed.

Lemma writeBatch_framed v b :
  hoare framed (writeBatch w settings v b) (fun _ => framed) framed.
Proof.
  unfold writeBatch.
  eapply hoare_bind with (Q := fun _ => framed);
    [apply hoare_get; intros tr H; exact H|].
  intros tr0. eapply hoare_bind with (Q := fun _ => framed).
  - destruct (isFileSizeExceeded w tr0 _ _); [apply rotate_framed|apply hoare_ret; auto].
  - intros v1. eapply hoare_bind with (Q := fun _ => framed);
      [apply forRange_inv; intros; apply writeOne_framed|].
    intros v2. eapply hoare_bind with (Q := fun _ => framed);
      [|intros; apply hoare_ret; intros tr H; exact H].
    intros tr H. simpl. framed_tac.
Qed.

Lemma recordWriter_framed records :
  framed (snd (recordWriter w settings records [])).
Proof.
  assert (H : hoare framed (recordWriter w settings records) (fun _ => framed) framed).
  { unfold recordWriter.
    eapply hoare_bind with (Q := fun _ => framed); [apply openFirst_framed|].
    intros v. eapply hoare_bind with (Q := fun _ => framed);
      [apply forRange_inv; intros; apply writeBatch_framed|].
    intros v1. apply shutdown_framed. }
  specialize (H [] framed_nil).
  destruct (recordWriter w settings records []) as [[[]|msg] tr]; exact H.
Qed.

End Compressed.

End Run.

(** *** Fields read back *)

Lemma dateOf_stamp t id r : dateOf (stamp t id r) = t.
Proof.
  unfold dateOf, stamp, SetHeader, Header_Set, Header_Get. simpl.
  rewrite lookup_insert_ne by discriminate. rewrite lookup_insert_eq. reflexivity.
Qed.

Lemma warcinfoOf_stamp t id r : warcinfoOf (stamp t id r) = urn id.
Proof.
  unfold warcinfoOf, stamp, SetHeader, Header_Set, Header_Get. simpl.
  rewrite lookup_insert_eq. reflexivity.
Qed.

Lemma map_dateOf_stamped id bs : map dateOf (stamped id bs) = captureTimes bs.
Proof.
  unfold stamped, captureTimes. induction bs as [|b bs IH]; simpl; [reflexivity|].
  rewrite map_app, IH. f_equal. rewrite map_map.
  apply map_ext. intros r. apply dateOf_stamp.
Qed.

Lemma Forall_warcinfoOf_stamped id bs :
  Forall (fun r => warcinfoOf r = urn id) (stamped id bs).
Proof.
  unfold stamped. induction bs as [|b bs IH]; simpl; [constructor|].
  apply Forall_app. split; [|exact IH].
  apply List.Forall_forall. intros r Hr. apply List.in_map_iff in Hr as (r0 & <- & _).
  apply warcinfoOf_stamp.
Qed.

Lemma prefix_of_map {A B} (f : A -> B) (l k : list A) :
  l `prefix_of` k -> map f l `prefix_of` map f k.
Proof. intros [t ->]. exists (map f t). apply map_app. Qed.

Lemma decodeFirst_take fs : forall n,
  Forall (fun fr : nat * list item => (length (snd fr) <= 1)%nat) fs ->
  flat_map snd (take n (List.filter holdsRecord fs)) = take n (flat_map snd fs).
Proof.
  induction fs as [|[f l] fs IH]; intros n H; simpl.
  - destruct n; reflexivity.
  - inversion H as [|? ? Hl Hfs]; subst. simpl in Hl.
    destruct l as [|it [|it' l]]; simpl in *; [apply IH, Hfs| |lia].
    unfold holdsRecord at 1. simpl. destruct n; simpl; [reflexivity|].
    f_equal. apply IH, Hfs.
Qed.

(** *** The obligations *)

(** C1. In every run the records written all carry the identifier of the
    first info record of the run, whatever the file they go to; in the
    sample run, which rotates once, the second file starts with the info
    record [id2] and its record refers to [id1]. *)
Theorem rotated_file_refers_to_first_info_record :
  (forall w settings records,
     Forall (fun r =>
               Some (warcinfoOf r)
               = option_map urn
                   (head (infoIDs (snd (recordWriter w settings records [])))))
            (writtenRecords (snd (recordWriter w settings records [])))) /\
  fileItems (snd (recordWriter sampleWorld (sampleSettings "") [batch1; batch2] [])) 1
    = [InfoRecord "id2";
       DataRecord (stamp "2021-01-01T00:00:02Z" "id1" sampleRecord)] /\
  map backRef
      (fileItems (snd (recordWriter sampleWorld (sampleSettings "") [batch1; batch2] [])) 1)
    = [None; Some "<urn:uuid:id1>"] /\
  backRefsOK
    (fileItems (snd (recordWriter sampleWorld (sampleSettings "") [batch1; batch2] [])) 1)
    = false.
Proof.
  split; [|split; [|split]]; [|vm_compute; reflexivity..].
  intros w settings records.
  destruct (recordWriter_wrote w settings records) as (id & [H|Hid] & [t Ht] & _).
  - rewrite H. constructor.
  - rewrite Hid. simpl.
    pose proof (Forall_warcinfoOf_stamped id records) as HF.
    rewrite Ht in HF. apply Forall_app in HF as [HF _].
    eapply Forall_impl; [exact HF|]. intros r Hr. simpl in Hr. rewrite Hr. reflexivity.
Qed.

(** C3. Whenever the rotation makes a call at all, its first call renames
    the file and the flush of the writer comes after it; in the sample
    run, which rotates once, the first file is renamed before the flush,
    the close of the compression stream and the close of the file, while
    the last file is renamed after them. *)
Theorem rotation_renames_before_flush :
  (forall w settings v tr,
     snd (rotate w settings v tr) = tr \/
     exists rest,
       snd (rotate w settings v tr)
       = tr ++ OsRename (OutputDirectory settings ++ currentFileName v)
                        (TrimSuffix (OutputDirectory settings ++ currentFileName v) ".open")
               :: Flush (warcWriter v) :: rest) /\
  snd (recordWriter sampleWorld (sampleSettings "GZIP") [batch1; batch2] [])
    = [OsCreate 0 "/tmp/EX-1.warc.open";
       EvNewWriter 0 0 "EX-1.warc.open" "GZIP";
       EvWriteInfoRecord 0 "id1"; GzipClose 0;
       EvNewWriter 1 0 "EX-1.warc.open" "GZIP";
       EvNewWriter 2 0 "EX-1.warc.open" "GZIP";
       EvWriteRecord 2 (stamp "2021-01-01T00:00:01Z" "id1" sampleRecord);
       GzipClose 2; Flush 2;
       OsRename "/tmp/EX-1.warc.open" "/tmp/EX-1.warc";
       Flush 2; GzipClose 2; FileClose 0;
       OsCreate 1 "/tmp/EX-2.warc.open";
       EvNewWriter 3 1 "EX-2.warc.open" "GZIP";
       EvWriteInfoRecord 3 "id2"; GzipClose 3;
       EvNewWriter 4 1 "EX-2.warc.open" "GZIP";
       EvWriteRecord 4 (stamp "2021-01-01T00:00:02Z" "id1" sampleRecord);
       GzipClose 4; Flush 4;
       Flush 4; GzipClose 4; FileClose 1;
       OsRename "/tmp/EX-2.warc.open" "/tmp/EX-2.warc"].
Proof.
  split; [|vm_compute; reflexivity].
  intros w settings v tr. unfold_block; simpl.
  destruct (fails w tr _); [left; reflexivity|]. right.
  destruct (String.eqb (Compression settings) "GZIP");
    destruct (String.eqb (Compression settings) "ZSTD");
    destruct (String.eqb (Compression settings) ""); simpl;
    repeat match goal with
           | |- context [fails ?w ?t ?e] => destruct (fails w t e); simpl
           end;
    rewrite <- ?app_assoc; simpl; eexists; reflexivity.
Qed.

Lemma typeOf_response (h : Header) (b : bytes) (d u : string) :
  typeOf (mkRecord
            (Header_Set (Header_Set (Header_Set (Header_Set h "WARC-Type" "response")
               "WARC-Payload-Digest" d) "WARC-Target-URI" u)
               "Content-Type" "application/http; msgtype=response") b)
  = "response".
Proof.
  unfold typeOf, Header_Set, Header_Get. simpl.
  rewrite !lookup_insert_ne by discriminate. rewrite lookup_insert_eq. reflexivity.
Qed.

Lemma typeOf_request (h : Header) (b : bytes) (d u host : string) :
  typeOf (mkRecord
            (Header_Set (Header_Set (Header_Set (Header_Set (Header_Set h
               "WARC-Type" "request") "WARC-Payload-Digest" d) "WARC-Target-URI" u)
               "Host" host) "Content-Type" "application/http; msgtype=request") b)
  = "request".
Proof.
  unfold typeOf, Header_Set, Header_Get. simpl.
  rewrite !lookup_insert_ne by discriminate. rewrite lookup_insert_eq. reflexivity.
Qed.

(** C6. A batch the capture callback sends, and a batch a successful call
    of [RecordsFromHTTPResponse] returns, holds two records, the response
    record then the request record, and one capture time; the records
    [recordWriter] writes carry as [WARC-Date], in order, the capture time
    of the batch each belongs to, all of them when the run returns. *)
Theorem batch_is_response_then_request (w : World) (now : string) :
  (forall req resp reqData respData batch,
     rawResponseCallback w now req resp reqData respData = Ret batch ->
     CaptureTime batch = now /\
     exists r1 r2, Records batch = [r1; r2] /\
                   typeOf r1 = "response" /\ typeOf r2 = "request") /\
  (forall response batch,
     RecordsFromHTTPResponse w now response = Ret (batch, None) ->
     CaptureTime batch = now /\
     exists r1 r2, Records batch = [r1; r2] /\
                   typeOf r1 = "response" /\ typeOf r2 = "request") /\
  (forall settings records,
     map dateOf (writtenRecords (snd (recordWriter w settings records [])))
       `prefix_of` captureTimes records /\
     (returned (fst (recordWriter w settings records [])) = true ->
      map dateOf (writtenRecords (snd (recordWriter w settings records [])))
      = captureTimes records)).
Proof.
  split; [|split].
  - intros req resp reqData respData batch.
    unfold rawResponseCallback, andThen, NewRecordBatch, SetHeader, SetContent.
    destruct (headersFromRawData w (NewRecord w) respData) as [r1|]; [|discriminate].
    destruct (readReaderIfNotNil (RespBody resp)) as [b1|]; [|discriminate].
    destruct (headersFromRawData w (NewRecord w) reqData) as [r2|]; [|discriminate].
    destruct (readReaderIfNotNil (ReqBody req)) as [b2|]; [|discriminate].
    simpl. intros [= <-]. split; [reflexivity|]. eexists _, _.
    split; [reflexivity|]. split; [apply typeOf_response|apply typeOf_request].
  - intros response batch.
    unfold RecordsFromHTTPResponse, NewRecordBatch, SetHeader, SetContent.
    destruct (DumpResponse w response) as [e|d1]; [discriminate|].
    destruct (Request_ response) as [request|]; [|discriminate].
    destruct (DumpRequestOut w request) as [e|d2]; [discriminate|].
    simpl. intros [= <-]. split; [reflexivity|]. eexists _, _.
    split; [reflexivity|]. split; [apply typeOf_response|apply typeOf_request].
  - intros settings records.
    destruct (recordWriter_wrote w settings records) as (id & _ & Hp & Hr).
    rewrite <- (map_dateOf_stamped id). split; [apply prefix_of_map, Hp|].
    intros Hret. rewrite (Hr Hret). reflexivity.
Qed.

Lemma batch_is_response_then_request_witness :
  exists batch,
    rawResponseCallback sampleWorld "2021-01-01T00:00:01Z" sampleRequest
                        sampleResponse sampleDump sampleDump = Ret batch /\
    CaptureTime batch = "2021-01-01T00:00:01Z" /\
    exists r1 r2, Records batch = [r1; r2] /\
                  typeOf r1 = "response" /\ typeOf r2 = "request".
Proof.
  eexists. split; [vm_compute; reflexivity|].
  apply (proj1 (batch_is_response_then_request sampleWorld "2021-01-01T00:00:01Z")
           sampleRequest sampleResponse sampleDump sampleDump).
  vm_compute. reflexivity.
Defined.

(** C7. As long as fewer than 2^63 - 1 batches arrive, the files a run
    creates are, in order, those of the serials 1, 2, ..., n: one file
    more than rotations were made, each rotation adding one to the serial;
    a run that returns has created the file of serial 1. *)
Theorem file_serials_count_up (w : World) (settings : RotatorSettings)
    (records : list RecordBatch) :
  (Z.of_nat (length records) < 2 ^ 63 - 1)%Z ->
  exists n,
    createdPaths (snd (recordWriter w settings records []))
      = map (path w settings) (seq 1 n) /\
    (n <= 1 + length records)%nat /\
    (returned (fst (recordWriter w settings records [])) = true -> (1 <= n)%nat).
Proof.
  intros H. destruct (recordWriter_paths w settings records H) as (n & Hn & Hp & Hr).
  exists n. split; [exact Hp|split; [exact Hn|exact Hr]].
Qed.

Lemma file_serials_count_up_witness :
  (Z.of_nat (length [batch1; batch2]) < 2 ^ 63 - 1)%Z /\
  exists n,
    createdPaths (snd (recordWriter sampleWorld (sampleSettings "GZIP") [batch1; batch2] []))
      = map (path sampleWorld (sampleSettings "GZIP")) (seq 1 n) /\
    (n <= 1 + length [batch1; batch2])%nat /\
    (returned (fst (recordWriter sampleWorld (sampleSettings "GZIP") [batch1; batch2] []))
       = true -> (1 <= n)%nat).
Proof.
  split; [reflexivity|].
  apply (file_serials_count_up sampleWorld (sampleSettings "GZIP") [batch1; batch2]).
  reflexivity.
Defined.

(** C8. With GZIP or ZSTD every record written, the info records included,
    ends up alone in a complete frame: the frames on disk hold at most one
    record each and, in order, all the records written, none is left in an
    open stream, and in every file, for every [n], decoding the first [n]
    frames that hold a record yields the first [n] records of the file. *)
Theorem each_record_is_its_own_frame (w : World) (settings : RotatorSettings)
    (records : list RecordBatch) :
  Compression settings = "GZIP" \/ Compression settings = "ZSTD" ->
  framed (snd (recordWriter w settings records [])) /\
  forall f n,
    decodeFirst f n (diskOf (snd (recordWriter w settings records [])))
    = take n (flat_map snd
                (framesOf f (diskOf (snd (recordWriter w settings records []))))).
Proof.
  intros Hc. pose proof (recordWriter_framed w settings Hc records) as H.
  split; [exact H|]. intros f n. destruct H as (HF & _ & _).
  unfold decodeFirst. apply decodeFirst_take.
  apply List.Forall_forall. intros fr Hfr. apply List.filter_In in Hfr as [Hfr _].
  exact (proj1 (List.Forall_forall _ _) HF fr Hfr).
Qed.

Lemma each_record_is_its_own_frame_witness :
  (Compression (sampleSettings "GZIP") = "GZIP" \/
   Compression (sampleSettings "GZIP") = "ZSTD") /\
  framed (snd (recordWriter sampleWorld (sampleSettings "GZIP") [batch1; batch2] [])) /\
  forall f n,
    decodeFirst f n
      (diskOf (snd (recordWriter sampleWorld (sampleSettings "GZIP") [batch1; batch2] [])))
    = take n (flat_map snd
                (framesOf f (diskOf (snd (recordWriter sampleWorld (sampleSettings "GZIP")
                                                       [batch1; batch2] []))))).
Proof.
  split; [left; reflexivity|].
  apply (each_record_is_its_own_frame sampleWorld (sampleSettings "GZIP")
           [batch1; batch2]).
  left. reflexivity.
Defined.

Lemma no_delimiter data :
  (forall pre post, data <> pre ++ pattern ++ post) -> forall j, ~ delimiterAt data j.
Proof.
  intros H j Hj. apply delimiterAt_inv in Hj as (pre & post & Hd & _).
  exact (H pre post Hd).
Qed.

Lemma ReadLine_nonempty (data : bytes) :
  data <> [] ->
  ReadLine data = inr (trimCR (fst (splitLine data)), snd (splitLine data)).
Proof.
  intros H. unfold ReadLine. destruct data as [|b data]; [congruence|].
  destruct (splitLine (b :: data)). reflexivity.
Qed.

(** C9. Raw bytes without the four delimiter bytes make the builder panic:
    [headersFromRawData] panics, and so does the capture callback, which
    then sends no batch, whether the bytes are those of the response or of
    the request.  When the delimiter is there, the header block is the
    bytes up to and including its first occurrence, and the fields set on
    the record are those the MIME parser reads after the first line of
    that block. *)
Theorem headersFromRawData_delimiter (w : World) (r : WARCRecord) (data : bytes) :
  ((forall pre post, data <> pre ++ pattern ++ post) ->
   headersFromRawData w r data = Panic "cant find header data" /\
   (forall now req resp reqData,
      rawResponseCallback w now req resp reqData data
      = Panic "cant find header data") /\
   (forall now req resp respData,
      returned (rawResponseCallback w now req resp data respData) = false)) /\
  (forall pre post,
     data = pre ++ pattern ++ post ->
     (forall pre' post', data = pre' ++ pattern ++ post' ->
                         (length pre <= length pre')%nat) ->
     headerEnd data = Ret (length pre + 4)%nat /\
     take (length pre + 4) data = pre ++ pattern /\
     headersFromRawData w r data
     = match ReadMIMEHeader w (snd (splitLine (pre ++ pattern))) with
       | inl e => Panic e
       | inr mimeHeader => Ret (setAll r mimeHeader)
       end).
Proof.
  split.
  - intros H.
    assert (Hp : forall r', headersFromRawData w r' data = Panic "cant find header data").
    { intros r'. unfold headersFromRawData.
      rewrite (headerEnd_absent data (no_delimiter data H)). reflexivity. }
    split; [apply Hp|]. split.
    + intros now req resp reqData. unfold rawResponseCallback, andThen.
      rewrite Hp. reflexivity.
    + intros now req resp respData. unfold rawResponseCallback, andThen.
      destruct (headersFromRawData w (NewRecord w) respData); [|reflexivity].
      destruct (readReaderIfNotNil (RespBody resp)); [|reflexivity].
      rewrite Hp. reflexivity.
  - intros pre post Hd Hfirst.
    assert (He : headerEnd data = Ret (length pre + 4)%nat).
    { apply headerEnd_first; [apply (delimiterAt_split data pre post Hd)|].
      intros j Hj Hat. apply delimiterAt_inv in Hat as (pre' & post' & Hd' & Hl).
      specialize (Hfirst pre' post' Hd'). lia. }
    assert (Ht : take (length pre + 4) data = pre ++ pattern).
    { rewrite Hd, app_assoc. apply take_app_length'.
      rewrite length_app. reflexivity. }
    split; [exact He|]. split; [exact Ht|].
    unfold headersFromRawData. rewrite He, Ht, ReadLine_nonempty; [reflexivity|].
    destruct pre; discriminate.
Qed.

Lemma headersFromRawData_delimiter_witness :
  headerEnd sampleDump = Ret 5%nat /\
  take 5 sampleDump = [x48; x0d; x0a; x0d; x0a] /\
  headersFromRawData sampleWorld sampleRecord sampleDump
  = match ReadMIMEHeader sampleWorld (snd (splitLine [x48; x0d; x0a; x0d; x0a])) with
    | inl e => Panic e
    | inr mimeHeader => Ret (setAll sampleRecord mimeHeader)
    end.
Proof.
  apply (proj2 (headersFromRawData_delimiter sampleWorld sampleRecord sampleDump)
           [x48] [x41] eq_refl).
  intros [|b [|b' pre']] post' H; simpl; try lia. discriminate.
Defined.

End RecorderFacts.

(** ** More on the capturing client *)
Module TransportMore.
Import Transport TransportFacts.

(** *** Further properties of the client *)

Lemma doIOs_run ios : forall st,
  doIOs ios st =
    (Ret tt, mkState (mkConnWrapper (c (cW st))
                                    (resp (cW st) ++ receivedBytes ios)
                                    (req (cW st) ++ sentBytes ios))
                     (calls st) (net st)).
Proof.
  induction ios as [|o ios IH]; intros st; simpl.
  - unfold ret. rewrite !app_nil_r. destruct st as [[? ? ?] ? ?]. reflexivity.
  - unfold bind. destruct o as [b|b]; simpl; rewrite IH; simpl;
      rewrite <- ?app_assoc; reflexivity.
Qed.

(** X1. On an attached wrapper, whatever the transport writes and reads
    between two invocations of the callback reaches the next invocation, all
    of it, once and in order, after what the buffers already held; the
    buffers are empty afterwards, so an invocation that follows at once gets
    no bytes, and the connection stays attached. *)
Theorem capture_delivers_each_byte_once (ios : list io) (rq rq' : Request)
    (rs rs' : option Response) (st : state) :
  is_Some (c (cW st)) ->
  exists st1 st2 st3,
    doIOs ios st = (Ret tt, st1) /\
    triggerCallback rq rs st1 = (Ret tt, st2) /\
    triggerCallback rq' rs' st2 = (Ret tt, st3) /\
    calls st3 = calls st ++
                [mkCall rq rs (req (cW st) ++ sentBytes ios)
                              (resp (cW st) ++ receivedBytes ios);
                 mkCall rq' rs' [] []] /\
    req (cW st3) = [] /\ resp (cW st3) = [] /\ c (cW st3) = c (cW st).
Proof.
  intros _. eexists _, _, _. split; [apply doIOs_run|].
  split; [reflexivity|]. split; [reflexivity|]. simpl.
  rewrite <- app_assoc. repeat split.
Qed.

Lemma capture_delivers_each_byte_once_witness :
  is_Some (c (cW (snd (dial plainOK foo_state)))) /\
  exists st1 st2 st3,
    doIOs [Sends [x47]; Receives [x48]; Sends [x41]] (snd (dial plainOK foo_state))
      = (Ret tt, st1) /\
    triggerCallback (mkRequest "/" None) None st1 = (Ret tt, st2) /\
    triggerCallback (mkRequest "/" None) None st2 = (Ret tt, st3) /\
    calls st3 = calls (snd (dial plainOK foo_state)) ++
                [mkCall (mkRequest "/" None) None
                        (req (cW (snd (dial plainOK foo_state)))
                         ++ sentBytes [Sends [x47]; Receives [x48]; Sends [x41]])
                        (resp (cW (snd (dial plainOK foo_state)))
                         ++ receivedBytes [Sends [x47]; Receives [x48]; Sends [x41]]);
                 mkCall (mkRequest "/" None) None [] []] /\
    req (cW st3) = [] /\ resp (cW st3) = [] /\
    c (cW st3) = c (cW (snd (dial plainOK foo_state))).
Proof.
  split; [eexists; reflexivity|].
  apply (capture_delivers_each_byte_once
           [Sends [x47]; Receives [x48]; Sends [x41]]
           (mkRequest "/" None) (mkRequest "/" None) None None
           (snd (dial plainOK foo_state))).
  eexists; reflexivity.
Defined.
Lemma send_on_one_connection srv i rq st :
  onOneConnection srv i rq ->
  (if Nat.eqb i 0 then c (cW st) = None else is_Some (c (cW st))) ->
  exists st1,
    send (srv i rq) st = (Ret (answer (srv i rq)), st1) /\
    calls st1 = calls st /\ is_Some (c (cW st1)) /\
    req (cW st1) = req (cW st) ++ wireReq (srv i rq) /\
    resp (cW st1) = resp (cW st) ++ wireResp (srv i rq).
Proof.
  unfold onOneConnection. intros Hd Hc. unfold send, bind, get. simpl.
  destruct (Nat.eqb i 0) eqn:E.
  - rewrite Hc. rewrite andb_false_r by exact I.
    destruct Hd as [conn Hd]. rewrite (dial_free _ _ Hc), Hd. simpl.
    eexists. split; [reflexivity|]. simpl. repeat split. eexists; reflexivity.
  - rewrite Hd. destruct Hc as [old Hc]. rewrite Hc. simpl.
    eexists. split; [reflexivity|]. simpl. repeat split. exists old. exact Hc.
Qed.

(** X2. When the first [k] requests of a call are redirected, for a [k] of
    at most nine, and the next one is answered without a redirect, all on
    the one connection of the client, the call returns that answer and no
    error; the callback has been invoked [k] more times, the [i]-th time
    with the answer to the request of hop [i] and the request built from
    it, and never with the final answer. *)
Theorem redirect_chain_records_each_redirect (srv : server) (rq : Request)
    (st : state) (k : nat) (final : Response) :
  (k <= 9)%nat -> redirectsFor srv rq st k = true ->
  hopConnects srv rq st k = true ->
  answer (hopExchange srv rq k) = inr final -> redirect final = None ->
  exists st' new,
    RoundTrip srv rq st = (Ret (Some final, None), st') /\
    calls st' = calls st ++ new /\ length new = k /\
    (forall i call, new !! i = Some call -> callOfHop srv rq i call) /\
    (forall call, In call new -> cbResp call <> Some final).
Proof.
  intros Hk H Hck Hfin Hnone.
  destruct (do_loop_redirects srv rq st k H k (12 - k) [] st)
    as (new & st1 & reqs1 & Hl & Hc & Hl1 & Ha & Hhops & Hrun);
    [simpl; lia | simpl; lia | reflexivity |].
  simpl in Hl1. rewrite Hl1 in Ha, Hrun.
  change (hopRequest srv rq (length (@nil Request))) with rq in Hrun.
  assert (Hc' : connects (attached st1) (hopExchange srv rq k) = true).
  { unfold hopConnects in Hck. destruct (Nat.eqb k 0); rewrite Ha; exact Hck. }
  destruct (send_connects _ st1 Hc') as (st2 & Hs & Hcalls & _).
  exists st2, new. split; [|split; [|split; [|split]]].
  - unfold RoundTrip, Do, bind. replace 12%nat with (k + (12 - k))%nat by lia.
    rewrite Hrun. destruct (12 - k)%nat as [|fuel] eqn:E; [lia|].
    rewrite do_loop_S. unfold bind. rewrite Hl1.
    unfold hopExchange in Hs, Hfin. rewrite Hs, Hfin, Hnone. reflexivity.
  - rewrite Hcalls. exact Hc.
  - exact Hl.
  - exact Hhops.
  - intros call Hin Hresp. apply list_elem_of_In, list_elem_of_lookup in Hin.
    destruct Hin as [i Hi]. specialize (Hhops i call Hi). simpl in Hhops.
    unfold callOfHop in Hhops.
    destruct (answer (hopExchange srv rq i)) as [e|rs]; [contradiction|].
    destruct (redirect rs) as [loc|] eqn:Er; [|contradiction].
    destruct Hhops as [_ Hrs]. rewrite Hrs in Hresp. congruence.
Qed.

Lemma redirect_chain_records_each_redirect_witness :
  (2 <= 9)%nat /\
  redirectsFor twoRedirects (mkRequest "http://example.org/" None) foo_state 2
    = true /\
  hopConnects twoRedirects (mkRequest "http://example.org/" None) foo_state 2
    = true /\
  answer (hopExchange twoRedirects (mkRequest "http://example.org/" None) 2)
    = inr ok200 /\
  redirect ok200 = None /\
  exists st' new,
    RoundTrip twoRedirects (mkRequest "http://example.org/" None) foo_state
      = (Ret (Some ok200, None), st') /\
    calls st' = calls foo_state ++ new /\ length new = 2%nat /\
    (forall i call, new !! i = Some call ->
       callOfHop twoRedirects (mkRequest "http://example.org/" None) i call) /\
    (forall call, In call new -> cbResp call <> Some ok200).
Proof.
  split; [lia|]. split; [reflexivity|]. split; [reflexivity|].
  split; [reflexivity|]. split; [reflexivity|].
  apply (redirect_chain_records_each_redirect twoRedirects
           (mkRequest "http://example.org/" None) foo_state 2 ok200);
    [lia | reflexivity | reflexivity | reflexivity | reflexivity].
Defined.

Lemma send_panics_only_with_guard ex st :
  panicsOnlyWith "connWrapper already contains a connection" (fst (send ex st)).
Proof.
  unfold send, bind, get. simpl.
  destruct (idle ex && bool_decide (is_Some (c (cW st)))); simpl; [exact I|].
  destruct (c (cW st)) eqn:E.
  - rewrite (dial_attached _ _ _ E). destruct (underlying (dialing ex)); simpl;
      [exact I|reflexivity].
  - rewrite (dial_free _ _ E). destruct (underlying (dialing ex)); simpl; exact I.
Qed.

Lemma do_loop_outcome srv fuel : forall reqs rq st,
  (10 - length reqs < fuel)%nat ->
  panicsOnlyWith "connWrapper already contains a connection"
                 (fst (do_loop srv fuel reqs rq st)) /\
  match fst (do_loop srv fuel reqs rq st) with
  | Ret (None, None) => False
  | _ => True
  end.
Proof.
  induction fuel as [|fuel IH]; intros reqs rq st Hf; [lia|].
  rewrite do_loop_S. unfold bind.
  pose proof (send_panics_only_with_guard (srv (length reqs) rq) st) as Hs.
  destruct (send (srv (length reqs) rq) st) as [[[e|rs]|msg] st1]; simpl in *;
    [split; exact I| |split; [exact Hs|exact I]].
  destruct (redirect rs) as [loc|]; [|split; exact I].
  rewrite checkRedirect_run.
  destruct (10 <=? Z.of_nat (length (reqs ++ [rq])))%Z eqn:E; [split; exact I|].
  apply Z.leb_gt in E. apply IH.
  rewrite length_app in *. simpl in *. lia.
Qed.

(** X3. A call of [RoundTrip] that returns gives its caller a response or
    an error, never both and never neither, whatever the server and the
    network do and whatever state the client is in. *)
Theorem RoundTrip_response_xor_error (srv : server) (rq : Request) (st : state) :
  responseXorError (fst (RoundTrip srv rq st)) = true.
Proof.
  unfold RoundTrip, Do, bind.
  destruct (do_loop_outcome srv 12 [] rq st ltac:(simpl; lia)) as [_ H].
  destruct (do_loop srv 12 [] rq st) as [[[[rs|] [e|]]|msg] st1]; simpl in *;
    first [reflexivity | contradiction].
Qed.

(** X4. The one panic a call of [RoundTrip] can end in is the fault of the
    wrapper that already holds a connection: the redirect loop itself always
    comes to an end, at the latest when the hook refuses the tenth redirect. *)
Theorem RoundTrip_panics_only_on_second_dial (srv : server) (rq : Request)
    (st : state) :
  panicsOnlyWith "connWrapper already contains a connection"
                 (fst (RoundTrip srv rq st)).
Proof.
  unfold RoundTrip, Do, bind.
  destruct (do_loop_outcome srv 12 [] rq st ltac:(simpl; lia)) as [H _].
  destruct (do_loop srv 12 [] rq st) as [[[rs [e|]]|msg] st1]; simpl in *;
    first [exact I | exact H].
Qed.

(** X5. A redirect that cannot reuse the connection of the client, such as
    a redirect to another host, ends the call in the panic of the wrapper:
    the first exchange is handed to the callback, then the dial for the
    second request finds the wrapper taken. *)
Theorem redirect_needing_new_connection_panics (srv : server) (rq : Request) :
  (exists conn, underlying (dialing (srv 0%nat rq)) = inr conn) ->
  (exists rs loc, answer (srv 0%nat rq) = inr rs /\ redirect rs = Some loc /\
     idle (srv 1%nat (mkRequest loc (Some rs))) = false /\
     exists conn', underlying (dialing (srv 1%nat (mkRequest loc (Some rs))))
                   = inr conn') ->
  exists st',
    RoundTrip srv rq foo_state
      = (Panic "connWrapper already contains a connection", st') /\
    length (calls st') = 1%nat.
Proof.
  intros Hd (rs & loc & Ha & Hr & Hidle & conn' & Hd').
  destruct (send_on_one_connection srv 0 rq foo_state Hd eq_refl)
    as (st1 & Hs & Hcalls & [old Hatt] & _ & _).
  eexists. split.
  - unfold RoundTrip, Do. unfold bind at 1.
    rewrite (do_loop_S srv 11 [] rq). unfold bind at 1.
    change (length (@nil Request)) with 0%nat. rewrite Hs, Ha, Hr.
    unfold bind at 1. rewrite checkRedirect_run.
    change (10 <=? Z.of_nat (length ([] ++ [rq])))%Z with false. cbv beta iota.
    rewrite (do_loop_S srv 10). unfold bind at 1. unfold send at 1.
    unfold bind at 1, get. unfold bind at 1. cbv beta iota.
    change (length ([] ++ [rq])) with 1%nat. rewrite Hidle. cbv beta iota.
    change (false && _) with false. cbv beta iota.
    erewrite dial_attached by (simpl; exact Hatt). rewrite Hd'. reflexivity.
  - simpl. rewrite length_app, Hcalls. reflexivity.
Qed.

Lemma redirect_needing_new_connection_panics_witness :
  (exists conn, underlying (dialing (redirectElsewhere 0%nat (mkRequest "/" None)))
                = inr conn) /\
  exists st',
    RoundTrip redirectElsewhere (mkRequest "/" None) foo_state
      = (Panic "connWrapper already contains a connection", st') /\
    length (calls st') = 1%nat.
Proof.
  split; [exists conn0; reflexivity|].
  apply (redirect_needing_new_connection_panics redirectElsewhere (mkRequest "/" None)).
  - exists conn0. reflexivity.
  - exists found302, "http://example.org/next".
    repeat split. exists conn2. reflexivity.
Defined.

(** X6. A dial that fails, in the underlying dial or in the TLS handshake,
    returns the error, attaches nothing and leaves the wrapper free: the
    next dial that succeeds gets the wrapper, attached to its connection. *)
Theorem failed_dial_leaves_wrapper_free (st : state) (d1 d2 : dialEnv)
    (e : error) (conn : Conn) :
  c (cW st) = None -> underlying d1 = inl e -> underlying d2 = inr conn ->
  exists st1 st2,
    dial d1 st = (Ret (inl e), st1) /\
    c (cW st1) = None /\ attaches st1 = attaches st /\
    dial d2 st1 = (Ret (inr TheConnWrapper), st2) /\
    c (cW st2) = Some conn /\ attaches st2 = S (attaches st).
Proof.
  intros Hc H1 H2. rewrite (dial_free d1 st Hc), H1.
  eexists _, _. split; [reflexivity|]. split; [exact Hc|].
  split; [rewrite attaches_addNet, underlyingEvents_no_attach; simpl; lia|].
  rewrite (dial_free d2 (addNet st (underlyingEvents d1)) Hc), H2.
  split; [reflexivity|]. split; [reflexivity|].
  unfold attaches. simpl. rewrite !filter_app, !length_app.
  rewrite !underlyingEvents_no_attach. simpl. lia.
Qed.

Lemma failed_dial_leaves_wrapper_free_witness :
  c (cW foo_state) = None /\
  underlying tlsBadHandshake = inl "tls: handshake failure" /\
  underlying plainOK = inr conn0 /\
  exists st1 st2,
    dial tlsBadHandshake foo_state = (Ret (inl "tls: handshake failure"), st1) /\
    c (cW st1) = None /\ attaches st1 = attaches foo_state /\
    dial plainOK st1 = (Ret (inr TheConnWrapper), st2) /\
    c (cW st2) = Some conn0 /\ attaches st2 = S (attaches foo_state).
Proof.
  split; [reflexivity|]. split; [reflexivity|]. split; [reflexivity|].
  apply (failed_dial_leaves_wrapper_free foo_state tlsBadHandshake plainOK
           "tls: handshake failure" conn0); reflexivity.
Defined.

(** X7. Whatever is done with a client, in any order and any number of
    times (dials, closes, writes, reads, redirect checks, whole round
    trips), its wrapper is either still empty, and then no connection was
    ever attached, or holds a connection, and then exactly one attachment
    was ever made. *)
Theorem one_attachment_per_client (ops : list op) :
  (c (cW (runOps ops foo_state)) = None /\ attaches (runOps ops foo_state) = 0%nat) \/
  (is_Some (c (cW (runOps ops foo_state))) /\
   attaches (runOps ops foo_state) = 1%nat).
Proof.
  destruct (evolves_runOps ops foo_state) as [[Hc Ha]|(_ & Hs & Ha)].
  - left. split; [rewrite Hc; reflexivity|rewrite Ha; reflexivity].
  - right. split; [exact Hs|rewrite Ha; reflexivity].
Qed.

End TransportMore.

(** ** More on the recorder *)
Module RecorderMore.
Import Recorder RecorderFacts.

(** *** Further properties of the builders *)

Lemma least_or_none (f : nat -> bool) (n : nat) :
  (exists k, (k <= n)%nat /\ f k = true /\ forall j, (j < k)%nat -> f j = false) \/
  (forall j, (j <= n)%nat -> f j = false).
Proof.
  induction n as [|n [IH|IH]].
  - destruct (f 0%nat) eqn:E.
    + left. exists 0%nat. split; [lia|]. split; [exact E|]. intros j Hj. lia.
    + right. intros j Hj. replace j with 0%nat by lia. exact E.
  - left. destruct IH as (k & Hk & Hf & Hl). exists k. split; [lia|]. split; assumption.
  - destruct (f (S n)) eqn:E.
    + left. exists (S n). split; [lia|]. split; [exact E|].
      intros j Hj. apply IH. lia.
    + right. intros j Hj. destruct (Nat.eq_dec j (S n)) as [->|Hne]; [exact E|].
      apply IH. lia.
Qed.

Lemma slice_app_within (a post : bytes) (j : nat) :
  (j + 4 <= length a)%nat -> slice (a ++ post) j (j + 4) = slice a j (j + 4).
Proof.
  intros H. unfold slice. replace (j + 4 - j)%nat with 4%nat by lia.
  rewrite drop_app_le by lia. apply take_app_le. rewrite length_drop. lia.
Qed.

Lemma delimiterAt_app_within (a post : bytes) (j : nat) :
  (j + 4 <= length a)%nat -> delimiterAt (a ++ post) j <-> delimiterAt a j.
Proof.
  intros H. rewrite <- !slice_delimiter, slice_app_within by exact H. reflexivity.
Qed.

Lemma first_delimiter_in_block (pre : bytes) :
  exists k, (k <= length pre)%nat /\ delimiterAt (pre ++ pattern) k /\
            forall j, (j < k)%nat -> ~ delimiterAt (pre ++ pattern) j.
Proof.
  set (f := fun j => bytes_Equal (slice (pre ++ pattern) j (j + 4)) pattern).
  assert (Hf : forall j, f j = true <-> delimiterAt (pre ++ pattern) j)
    by (intros j; unfold f; rewrite bytes_Equal_eq; apply slice_delimiter).
  destruct (least_or_none f (length pre)) as [(k & Hk & Hfk & Hl)|Hnone].
  - exists k. split; [exact Hk|]. split; [apply Hf, Hfk|].
    intros j Hj Hd. apply Hf in Hd. rewrite (Hl j Hj) in Hd. discriminate.
  - assert (Hd : delimiterAt (pre ++ pattern) (length pre)).
    { apply (delimiterAt_split _ pre []). rewrite app_nil_r. reflexivity. }
    apply Hf in Hd. rewrite (Hnone (length pre)) in Hd by lia. discriminate.
Qed.

Lemma headerEnd_block (pre post : bytes) :
  exists k, (k <= length pre)%nat /\
            headerEnd ((pre ++ pattern) ++ post) = Ret (k + 4)%nat /\
            take (k + 4) ((pre ++ pattern) ++ post) = take (k + 4) (pre ++ pattern).
Proof.
  destruct (first_delimiter_in_block pre) as (k & Hk & Hd & Hfirst).
  assert (Hlen : length (pre ++ pattern) = (length pre + 4)%nat)
    by (rewrite length_app; reflexivity).
  exists k. split; [exact Hk|]. split.
  - apply headerEnd_first.
    + apply delimiterAt_app_within; [lia|exact Hd].
    + intros j Hj Hdj. apply delimiterAt_app_within in Hdj; [|lia].
      exact (Hfirst j Hj Hdj).
  - apply take_app_le. lia.
Qed.

(** X8. What follows the first delimiter has no part in the headers: two
    inputs that agree up to and including a delimiter give the same result,
    the same record or the same panic. *)
Theorem headers_do_not_depend_on_the_body (w : World) (r : WARCRecord)
    (pre post post' : bytes) :
  headersFromRawData w r (pre ++ pattern ++ post)
  = headersFromRawData w r (pre ++ pattern ++ post').
Proof.
  rewrite !(app_assoc pre pattern). unfold headersFromRawData.
  destruct (headerEnd_block pre post) as (k & Hk & He & Ht).
  destruct (headerEnd_block pre post') as (k' & Hk' & He' & Ht').
  assert (k' = k).
  { destruct (first_delimiter_in_block pre) as (k0 & Hk0 & Hd0 & Hfirst).
    assert (Hlen : length (pre ++ pattern) = (length pre + 4)%nat)
      by (rewrite length_app; reflexivity).
    assert (H1 : headerEnd ((pre ++ pattern) ++ post) = Ret (k0 + 4)%nat).
    { apply headerEnd_first; [apply delimiterAt_app_within; [lia|exact Hd0]|].
      intros j Hj Hdj. apply delimiterAt_app_within in Hdj; [|lia].
      exact (Hfirst j Hj Hdj). }
    assert (H2 : headerEnd ((pre ++ pattern) ++ post') = Ret (k0 + 4)%nat).
    { apply headerEnd_first; [apply delimiterAt_app_within; [lia|exact Hd0]|].
      intros j Hj Hdj. apply delimiterAt_app_within in Hdj; [|lia].
      exact (Hfirst j Hj Hdj). }
    rewrite He in H1. rewrite He' in H2. injection H1. injection H2. lia. }
  subst k'. rewrite He, He', Ht, Ht'. reflexivity.
Qed.

Lemma sameField_refl key : sameField key key = true.
Proof. apply String.eqb_refl. Qed.

Lemma namesOneOf_false keys key :
  namesOneOf keys key = false -> ~ In key keys.
Proof.
  unfold namesOneOf. induction keys as [|k keys IH]; simpl; [tauto|].
  intros H. apply orb_false_iff in H as [H1 H2]. intros [->|Hin].
  - rewrite sameField_refl in H1. discriminate.
  - exact (IH H2 Hin).
Qed.

Lemma NoDup_lowerName keys :
  List.NoDup (map lowerName keys) -> List.NoDup keys.
Proof.
  induction keys as [|k keys IH]; simpl; intros H; [constructor|].
  inversion H as [|? ? Hn Hd]; subst. constructor; [|exact (IH Hd)].
  intros Hin. apply Hn, in_map, Hin.
Qed.

Example sameField_ignores_case :
  sameField "warc-date" "WARC-Date" = true /\
  sameField "Warc-Type" "WARC-Type" = true /\
  sameField "WARC-Date" "WARC-Warcinfo-ID" = false /\
  namesOneOf ["WARC-Date"; "WARC-Warcinfo-ID"] "warc-warcinfo-id" = true /\
  namesOneOf ["WARC-Date"; "WARC-Warcinfo-ID"] "WARC-Type" = false.
Proof. repeat split; reflexivity. Qed.

Lemma setAll_content h : forall r, Content (setAll r h) = Content r.
Proof.
  unfold setAll. induction h as [|[k v] h IH]; intros r; simpl; [reflexivity|].
  rewrite IH. reflexivity.
Qed.

Lemma setAll_other h key : forall r,
  ~ In key (map fst h) -> fieldOf key (setAll r h) = fieldOf key r.
Proof.
  unfold setAll. induction h as [|[k v] h IH]; intros r Hn; simpl; [reflexivity|].
  simpl in Hn. rewrite IH by tauto.
  unfold fieldOf, SetHeader, Header_Set, Header_Get. simpl.
  rewrite lookup_insert_ne by tauto. reflexivity.
Qed.

Lemma setAll_field h : forall r key v,
  List.NoDup (map fst h) -> In (key, v) h ->
  fieldOf key (setAll r h) = Join v ",".
Proof.
  unfold setAll. induction h as [|[k v'] h IH]; intros r key v Hnd Hin; simpl;
    [destruct Hin|].
  inversion Hnd as [|? ? Hnotin Hnd']; subst. destruct Hin as [[= -> ->]|Hin].
  - fold (setAll (SetHeader r key (Join v ",")) h).
    rewrite setAll_other by exact Hnotin.
    unfold fieldOf, SetHeader, Header_Set, Header_Get. simpl.
    rewrite lookup_insert_eq. reflexivity.
  - apply IH; assumption.
Qed.

(** X9. When [headersFromRawData] returns, the record has the content it
    had; every field whose name is no spelling of a name the MIME parser
    read holds what it held before; and when the names read differ from
    one another in more than the case of their letters, every field read
    holds its values joined by commas. *)
Theorem parsed_fields_are_copied (w : World) (r r' : WARCRecord) (data : bytes) :
  headersFromRawData w r data = Ret r' ->
  exists pos line rest mimeHeader,
    headerEnd data = Ret pos /\
    ReadLine (take pos data) = inr (line, rest) /\
    ReadMIMEHeader w rest = inr mimeHeader /\
    Content r' = Content r /\
    (forall key, namesOneOf (map fst mimeHeader) key = false ->
                 fieldOf key r' = fieldOf key r) /\
    (List.NoDup (map lowerName (map fst mimeHeader)) ->
     forall key v, In (key, v) mimeHeader -> fieldOf key r' = Join v ",").
Proof.
  unfold headersFromRawData. intros H.
  destruct (headerEnd data) as [pos|] eqn:Ee; [|discriminate].
  destruct (ReadLine (take pos data)) as [e|[line rest]] eqn:El; [discriminate|].
  destruct (ReadMIMEHeader w rest) as [e|h] eqn:Em; [discriminate|].
  injection H as <-. exists pos, line, rest, h.
  split; [reflexivity|]. split; [exact El|]. split; [exact Em|].
  split; [apply setAll_content|]. split.
  - intros key Hk. apply setAll_other, namesOneOf_false, Hk.
  - intros Hnd key v Hin.
    apply (setAll_field h r key v (NoDup_lowerName _ Hnd) Hin).
Qed.

Ltac field_tac :=
  unfold fieldOf, SetHeader, SetContent, Header_Set, Header_Get; simpl;
  repeat (rewrite lookup_insert_ne by congruence);
  rewrite ?lookup_insert_eq; reflexivity.

Ltac other_field_tac Hk :=
  apply namesOneOf_false in Hk; simpl in Hk;
  unfold fieldOf, SetHeader, SetContent, Header_Set, Header_Get; simpl;
  repeat (rewrite lookup_insert_ne by (intros E; tauto)); reflexivity.

(** X10. The two records the capture callback builds: the digest is taken
    over the whole raw bytes of the side, the target is the URL of the
    request for both, the request record has the host of that URL, and the
    content is the body read from the response or the request (nothing for
    a nil body), not the raw bytes; every field whose name is no spelling of
    a name the callback sets holds what the parse of the raw bytes gave
    it. *)
Theorem callback_records_metadata (w : World) (now : string) (req : HTTPRequest)
    (resp : HTTPResponse) (reqData respData : bytes) (batch : RecordBatch) :
  rawResponseCallback w now req resp reqData respData = Ret batch ->
  exists h1 h2 r1 r2,
    headersFromRawData w (NewRecord w) respData = Ret h1 /\
    headersFromRawData w (NewRecord w) reqData = Ret h2 /\
    Records batch = [r1; r2] /\
    (fieldOf "WARC-Payload-Digest" r1 = ("sha1:" ++ GetSHA1 w respData)%string /\
     fieldOf "WARC-Target-URI" r1 = URL_String req /\
     fieldOf "Content-Type" r1 = "application/http; msgtype=response" /\
     readReaderIfNotNil (RespBody resp) = Ret (Content r1) /\
     forall key, namesOneOf ["WARC-Type"; "WARC-Payload-Digest"; "WARC-Target-URI";
                             "Content-Type"] key = false ->
                 fieldOf key r1 = fieldOf key h1) /\
    (fieldOf "WARC-Payload-Digest" r2 = ("sha1:" ++ GetSHA1 w reqData)%string /\
     fieldOf "WARC-Target-URI" r2 = URL_String req /\
     fieldOf "Host" r2 = URL_Host req /\
     fieldOf "Content-Type" r2 = "application/http; msgtype=request" /\
     readReaderIfNotNil (ReqBody req) = Ret (Content r2) /\
     forall key, namesOneOf ["WARC-Type"; "WARC-Payload-Digest"; "WARC-Target-URI";
                             "Host"; "Content-Type"] key = false ->
                 fieldOf key r2 = fieldOf key h2).
Proof.
  unfold rawResponseCallback, andThen, NewRecordBatch.
  destruct (headersFromRawData w (NewRecord w) respData) as [h1|]; [|discriminate].
  destruct (readReaderIfNotNil (RespBody resp)) as [b1|]; [|discriminate].
  destruct (headersFromRawData w (NewRecord w) reqData) as [h2|]; [|discriminate].
  destruct (readReaderIfNotNil (ReqBody req)) as [b2|]; [|discriminate].
  simpl. intros [= <-]. eexists h1, h2, _, _.
  split; [reflexivity|]. split; [reflexivity|]. split; [reflexivity|]. split.
  - split; [field_tac|]. split; [field_tac|]. split; [field_tac|].
    split; [reflexivity|]. intros key Hk. other_field_tac Hk.
  - split; [field_tac|]. split; [field_tac|]. split; [field_tac|].
    split; [field_tac|]. split; [reflexivity|]. intros key Hk. other_field_tac Hk.
Qed.

(** X11. [RecordsFromHTTPResponse] returns an error exactly when one of the
    two dumps fails, and the batch it returns with the error holds no
    record: the response record built before a failing request dump is
    dropped. *)
Theorem failed_dump_returns_empty_batch (w : World) (now : string)
    (response : HTTPResponse) (batch : RecordBatch) (e : error) :
  RecordsFromHTTPResponse w now response = Ret (batch, Some e) ->
  Records batch = [] /\ CaptureTime batch = now /\
  (DumpResponse w response = inl e \/
   exists request, Request_ response = Some request /\
                   DumpRequestOut w request = inl e).
Proof.
  unfold RecordsFromHTTPResponse, NewRecordBatch.
  destruct (DumpResponse w response) as [e1|d1] eqn:E1.
  - intros [= <- <-]. split; [reflexivity|]. split; [reflexivity|]. left. reflexivity.
  - destruct (Request_ response) as [request|]; [|discriminate].
    destruct (DumpRequestOut w request) as [e2|d2] eqn:E2; [|discriminate].
    intros [= <- <-]. split; [reflexivity|]. split; [reflexivity|].
    right. exists request. split; [reflexivity|exact E2].
Qed.

(** X12. The two records a successful [RecordsFromHTTPResponse] builds hold
    as content the whole dump of the response and of its request, headers
    included, and the digest of each is the digest of its content; both
    have the URL of the request as target and the request record its host. *)
Theorem dumped_records_metadata (w : World) (now : string)
    (response : HTTPResponse) (batch : RecordBatch) :
  RecordsFromHTTPResponse w now response = Ret (batch, None) ->
  exists request r1 r2,
    Request_ response = Some request /\
    Records batch = [r1; r2] /\
    DumpResponse w response = inr (Content r1) /\
    DumpRequestOut w request = inr (Content r2) /\
    fieldOf "WARC-Payload-Digest" r1 = ("sha1:" ++ GetSHA1 w (Content r1))%string /\
    fieldOf "WARC-Payload-Digest" r2 = ("sha1:" ++ GetSHA1 w (Content r2))%string /\
    fieldOf "WARC-Target-URI" r1 = URL_String request /\
    fieldOf "WARC-Target-URI" r2 = URL_String request /\
    fieldOf "Host" r2 = URL_Host request /\
    fieldOf "Content-Type" r1 = "application/http; msgtype=response" /\
    fieldOf "Content-Type" r2 = "application/http; msgtype=request".
Proof.
  unfold RecordsFromHTTPResponse, NewRecordBatch.
  destruct (DumpResponse w response) as [e1|d1] eqn:E1; [discriminate|].
  destruct (Request_ response) as [request|]; [|discriminate].
  destruct (DumpRequestOut w request) as [e2|d2] eqn:E2; [discriminate|].
  simpl. intros [= <-]. eexists request, _, _.
  split; [reflexivity|]. split; [reflexivity|].
  split; [reflexivity|]. split; [exact E2|].
  repeat split; field_tac.
Qed.
(** *** Further properties of the record writer *)

Section MoreRun.
Variable w : World.
Variable settings : RotatorSettings.

Ltac split_comp :=
  destruct (String.eqb (Compression settings) "GZIP") eqn:Egz;
  destruct (String.eqb (Compression settings) "ZSTD") eqn:Ezs;
  destruct (String.eqb (Compression settings) "") eqn:Eno; simpl.

Lemma layout_snoc tr e :
  layout (tr ++ [e]) = match layout tr with Some s => layoutStep s e | None => None end.
Proof. unfold layout. rewrite fold_left_app. reflexivity. Qed.

Ltac layout_tac H :=
  repeat rewrite layout_snoc; rewrite H; simpl;
  repeat first [ rewrite Nat.eqb_refl
               | progress simpl
               | progress unfold onCurrent, throughLast ];
  first [ eexists; reflexivity | reflexivity | eexists; eexists; reflexivity ].

Lemma openFirst_layout :
  hoare (fun tr => tr = []) (openFirst w settings)
        (fun v tr => laidOut (warcFile v) Started tr) soundLayout.
Proof.
  intros tr ->. unfold_block; simpl; split_comp; split_fails;
    first [ eexists; reflexivity ].
Qed.

Lemma rotate_layout v :
  hoare (laidOut (warcFile v) Started) (rotate w settings v)
        (fun v' tr => laidOut (warcFile v') Started tr) soundLayout.
Proof.
  intros tr [lw H]. unfold_block; simpl. split_comp; split_fails;
    unfold soundLayout, laidOut; layout_tac H.
Qed.

Lemma writeOne_layout t v r :
  hoare (laidOut (warcFile v) Started) (writeOne w settings t v r)
        (fun v' tr => laidOut (warcFile v') Started tr) soundLayout.
Proof.
  intros tr [lw H]. unfold_block; simpl. split_comp; split_fails;
    unfold soundLayout, laidOut; layout_tac H.
Qed.

Lemma shutdown_layout v :
  hoare (laidOut (warcFile v) Started) (shutdown w settings v)
        (fun _ tr => laidOut (warcFile v) Closed tr) soundLayout.
Proof.
  intros tr [lw H]. unfold_block; simpl. split_comp; split_fails;
    unfold soundLayout, laidOut; layout_tac H.
Qed.

Lemma forRange_carried {A} (body : vars -> A -> W vars)
    (I : vars -> list event -> Prop) (R : list event -> Prop) l :
  (forall v x, hoare (I v) (body v x) I R) ->
  forall v, hoare (I v) (forRange body l v) I R.
Proof.
  intros Hb. induction l as [|x l IH]; intros v; simpl.
  - apply hoare_ret. auto.
  - eapply hoare_bind with (Q := I); [apply Hb|]. intros v'. apply IH.
Qed.

Lemma writeBatch_carried (I : vars -> list event -> Prop) (R : list event -> Prop) :
  (forall v, hoare (I v) (rotate w settings v) I R) ->
  (forall t v r, hoare (I v) (writeOne w settings t v r) I R) ->
  (forall v tr wr, I v tr -> I v (tr ++ [Flush wr])) ->
  forall v b, hoare (I v) (writeBatch w settings v b) I R.
Proof.
  intros Hrot Hone Hflush v b. unfold writeBatch.
  eapply hoare_bind with (Q := fun _ => I v);
    [apply hoare_get; intros tr H; exact H|].
  intros tr0. eapply hoare_bind with (Q := I).
  - destruct (isFileSizeExceeded w tr0 _ _); [apply Hrot|apply hoare_ret; auto].
  - intros v1. eapply hoare_bind with (Q := I);
      [apply forRange_carried; intros; apply Hone|].
    intros v2. eapply hoare_bind with (Q := fun _ => I v2);
      [|intros; apply hoare_ret; intros tr H; exact H].
    intros tr H. simpl. apply Hflush, H.
Qed.

Lemma recordWriter_carried (I : vars -> list event -> Prop)
    (Q R : list event -> Prop) records :
  hoare (fun tr => tr = []) (openFirst w settings) I R ->
  (forall v, hoare (I v) (rotate w settings v) I R) ->
  (forall t v r, hoare (I v) (writeOne w settings t v r) I R) ->
  (forall v tr wr, I v tr -> I v (tr ++ [Flush wr])) ->
  (forall v, hoare (I v) (shutdown w settings v) (fun _ => Q) R) ->
  match recordWriter w settings records [] with
  | (Ret _, tr) => Q tr
  | (Panic _, tr) => R tr
  end.
Proof.
  intros Hopen Hrot Hone Hflush Hshut.
  assert (H : hoare (fun tr => tr = []) (recordWriter w settings records)
                    (fun _ => Q) R).
  { unfold recordWriter. eapply hoare_bind with (Q := I); [exact Hopen|].
    intros v. eapply hoare_bind with (Q := I);
      [apply forRange_carried; intros; apply writeBatch_carried; assumption|].
    intros v1. apply Hshut. }
  exact (H [] eq_refl).
Qed.

Lemma recordWriter_layout records :
  match recordWriter w settings records [] with
  | (Ret _, tr) => exists f, laidOut f Closed tr
  | (Panic _, tr) => soundLayout tr
  end.
Proof.
  apply (recordWriter_carried (fun v => laidOut (warcFile v) Started)).
  - apply openFirst_layout.
  - apply rotate_layout.
  - apply writeOne_layout.
  - intros v tr wr [lw H]. exists lw. rewrite layout_snoc, H. reflexivity.
  - intros v tr H. pose proof (shutdown_layout v tr H) as Hs.
    destruct (shutdown w settings v tr) as [[[]|msg] tr1]; [exists (warcFile v)|];
      exact Hs.
Qed.

Lemma renames_app tr tr' : renames (tr ++ tr') = renames tr ++ renames tr'.
Proof. unfold renames. apply flat_map_app. Qed.

Lemma sealedBut_other cur tr e :
  isCreate e = false -> isRename e = false ->
  sealedBut cur tr -> sealedBut cur (tr ++ [e]).
Proof.
  intros Hc Hr (ps & H1 & H2). exists ps.
  rewrite createdPaths_app, renames_app, H1, H2.
  destruct e; try discriminate; simpl; rewrite !app_nil_r; split; reflexivity.
Qed.

Lemma sealedAll_other tr e :
  isCreate e = false -> isRename e = false -> sealedAll tr -> sealedAll (tr ++ [e]).
Proof.
  unfold sealedAll. intros Hc Hr H. rewrite createdPaths_app, renames_app, H.
  destruct e; try discriminate; simpl; rewrite !app_nil_r; reflexivity.
Qed.

Lemma sealedBut_rename cur tr :
  sealedBut cur tr -> sealedAll (tr ++ [OsRename cur (TrimSuffix cur ".open")]).
Proof.
  intros (ps & H1 & H2). unfold sealedAll.
  rewrite createdPaths_app, renames_app, H1, H2. simpl.
  rewrite app_nil_r, map_app. reflexivity.
Qed.

Lemma sealedAll_create tr f p : sealedAll tr -> sealedBut p (tr ++ [OsCreate f p]).
Proof.
  unfold sealedAll. intros H. exists (createdPaths tr).
  rewrite createdPaths_app, renames_app, H. simpl. rewrite app_nil_r.
  split; reflexivity.
Qed.

Lemma sealedBut_nearly cur tr : sealedBut cur tr -> nearlySealed tr.
Proof. intros (ps & H1 & H2). exists ps, [cur]. repeat split; [exact H1|simpl; lia|exact H2]. Qed.

Lemma sealedAll_nearly tr : sealedAll tr -> nearlySealed tr.
Proof.
  intros H. exists (createdPaths tr), []. rewrite app_nil_r.
  repeat split; [simpl; lia|exact H].
Qed.

Ltac sealed_tac :=
  repeat first
    [ eassumption
    | reflexivity
    | apply sealedBut_other; [reflexivity|reflexivity|]
    | apply sealedAll_other; [reflexivity|reflexivity|]
    | apply sealedBut_rename
    | apply sealedAll_create ].

Ltac nearly_tac :=
  first [ solve [eapply sealedBut_nearly; sealed_tac]
        | solve [apply sealedAll_nearly; sealed_tac] ].

Local Abbreviation curPath := (Recorder.curPath settings).

Lemma openFirst_sealed :
  hoare (fun tr => tr = []) (openFirst w settings)
        (fun v tr => sealedBut (curPath v) tr) nearlySealed.
Proof.
  intros tr ->. unfold_block; simpl; split_comp; split_fails;
    unfold Recorder.curPath; simpl;
    first [ exists []; split; reflexivity
          | exists [], []; split; [reflexivity|split; [simpl; lia|reflexivity]]
          | eexists [], [_]; split; [reflexivity|split; [simpl; lia|reflexivity]] ].
Qed.

Lemma rotate_sealed v :
  hoare (sealedBut (curPath v)) (rotate w settings v)
        (fun v' tr => sealedBut (curPath v') tr) nearlySealed.
Proof.
  intros tr H. unfold Recorder.curPath in *. unfold_block; simpl. split_comp; split_fails;
    first [ solve [sealed_tac] | nearly_tac ].
Qed.

Lemma writeOne_sealed t v r :
  hoare (sealedBut (curPath v)) (writeOne w settings t v r)
        (fun v' tr => sealedBut (curPath v') tr) nearlySealed.
Proof.
  intros tr H. unfold Recorder.curPath in *. unfold_block; simpl. split_comp; split_fails;
    first [ solve [sealed_tac] | nearly_tac ].
Qed.

Lemma shutdown_sealed v :
  hoare (sealedBut (curPath v)) (shutdown w settings v)
        (fun _ tr => sealedAll tr) nearlySealed.
Proof.
  intros tr H. unfold Recorder.curPath in *. unfold_block; simpl. split_comp; split_fails;
    first [ solve [sealed_tac] | nearly_tac ].
Qed.

Lemma recordWriter_sealed records :
  match recordWriter w settings records [] with
  | (Ret _, tr) => sealedAll tr
  | (Panic _, tr) => nearlySealed tr
  end.
Proof.
  apply (recordWriter_carried (fun v => sealedBut (curPath v))).
  - apply openFirst_sealed.
  - apply rotate_sealed.
  - apply writeOne_sealed.
  - intros v tr wr H. sealed_tac.
  - apply shutdown_sealed.
Qed.

Lemma closeChunk_run wr tr :
  closeChunk settings wr tr = (Ret tt, tr ++ closeEventsOf settings wr).
Proof.
  unfold closeChunk, closeEventsOf, perform, ret.
  destruct (String.eqb (Compression settings) "") eqn:Eno; simpl.
  - apply String.eqb_eq in Eno. rewrite Eno. simpl. rewrite app_nil_r. reflexivity.
  - destruct (String.eqb (Compression settings) "GZIP"); [reflexivity|].
    destruct (String.eqb (Compression settings) "ZSTD"); [reflexivity|].
    rewrite app_nil_r. reflexivity.
Qed.

Lemma shutdown_run v tr :
  shutdown w settings v tr =
    let tr1 := ((tr ++ [Flush (warcWriter v)]) ++ closeEventsOf settings (warcWriter v))
                 ++ [FileClose (warcFile v)] in
    let e := OsRename (curPath v) (TrimSuffix (curPath v) ".open") in
    if fails w tr1 e then (Panic "err", tr1) else (Ret tt, tr1 ++ [e]).
Proof.
  unfold shutdown, os_Rename, attempt. unfold bind at 1. unfold perform at 1.
  unfold bind at 1. rewrite closeChunk_run. unfold bind at 1, perform.
  reflexivity.
Qed.

Lemma recordWriter_ends_in_shutdown records :
  returned (fst (recordWriter w settings records [])) = true ->
  exists tr0 v,
    sealedBut (curPath v) tr0 /\
    snd (recordWriter w settings records [])
    = tr0 ++ [Flush (warcWriter v)] ++ closeEventsOf settings (warcWriter v)
          ++ [FileClose (warcFile v);
              OsRename (curPath v) (TrimSuffix (curPath v) ".open")].
Proof.
  unfold recordWriter, bind.
  pose proof (openFirst_sealed [] eq_refl) as Ho.
  destruct (openFirst w settings []) as [[v|msg] tr]; [|discriminate].
  assert (Hl : hoare (sealedBut (curPath v))
                     (forRange (writeBatch w settings) records v)
                     (fun v' => sealedBut (curPath v')) nearlySealed).
  { apply (forRange_carried _ (fun v' => sealedBut (curPath v'))).
    intros v0 b. apply (writeBatch_carried (fun v' => sealedBut (curPath v'))).
    - apply rotate_sealed.
    - apply writeOne_sealed.
    - intros v1 tr1 wr H. sealed_tac. }
  specialize (Hl tr Ho).
  destruct (forRange _ records v tr) as [[v1|msg] tr1]; [|discriminate].
  rewrite shutdown_run. cbv zeta.
  destruct (fails w _ _); [discriminate|]. intros _.
  exists tr1, v1. split; [exact Hl|]. simpl. rewrite <- !app_assoc. reflexivity.
Qed.

Local Abbreviation closesMatch := (Recorder.closesMatch settings).

Lemma closesMatch_snoc tr e :
  closeMatches settings e -> closesMatch tr -> closesMatch (tr ++ [e]).
Proof. intros He H. apply Forall_app. split; [exact H|]. constructor; [exact He|constructor]. Qed.

Ltac close_side :=
  first [ exact I | unfold closeMatches; simpl; apply String.eqb_eq; assumption ].

Ltac closes_tac :=
  repeat first
    [ assumption
    | apply closesMatch_snoc; [close_side|] ].

Lemma openFirst_closes :
  hoare (fun tr => tr = []) (openFirst w settings) (fun _ => closesMatch) closesMatch.
Proof.
  intros tr ->. unfold_block; simpl; split_comp; split_fails;
    unfold Recorder.closesMatch;
    repeat (constructor; [close_side|]); constructor.
Qed.

Lemma rotate_closes v :
  hoare closesMatch (rotate w settings v) (fun _ => closesMatch) closesMatch.
Proof. intros tr H. unfold_block; simpl. split_comp; split_fails; solve [closes_tac]. Qed.

Lemma writeOne_closes t v r :
  hoare closesMatch (writeOne w settings t v r) (fun _ => closesMatch) closesMatch.
Proof. intros tr H. unfold_block; simpl. split_comp; split_fails; solve [closes_tac]. Qed.

Lemma shutdown_closes v :
  hoare closesMatch (shutdown w settings v) (fun _ => closesMatch) closesMatch.
Proof. intros tr H. unfold_block; simpl. split_comp; split_fails; solve [closes_tac]. Qed.

Lemma recordWriter_closes records :
  closesMatch (snd (recordWriter w settings records [])).
Proof.
  pose proof (recordWriter_carried (fun _ => closesMatch) closesMatch closesMatch records
                openFirst_closes rotate_closes writeOne_closes) as H.
  destruct (recordWriter w settings records []) as [[[]|msg] tr]; apply H;
    first [ intros v tr0 wr H0; closes_tac | apply shutdown_closes ].
Qed.
Lemma writeBatch_no_rotation n v b :
  (forall tr p q, isFileSizeExceeded w tr p q = false) ->
  hoare (paths w settings n) (writeBatch w settings v b)
        (fun _ => paths w settings n) (paths w settings n).
Proof.
  intros Hn tr H. unfold writeBatch. unfold bind at 1, get. rewrite Hn.
  unfold bind at 1, ret at 1. unfold bind at 1.
  pose proof (writeRecords_paths w settings n (CaptureTime b) (Records b) v tr H) as Hw.
  destruct (forRange _ (Records b) v tr) as [[v2|msg] tr2]; [|exact Hw].
  destruct Hw as [H2 _]. unfold bind, perform, ret.
  apply paths_other; [reflexivity|exact H2].
Qed.

Lemma recordWriter_no_rotation records :
  (forall tr p q, isFileSizeExceeded w tr p q = false) ->
  match recordWriter w settings records [] with
  | (Ret _, tr) => paths w settings 1 tr
  | (Panic _, tr) => anyPaths w settings 1 tr
  end.
Proof.
  intros Hn. unfold recordWriter, bind.
  pose proof (openFirst_paths w settings [] eq_refl) as Ho.
  destruct (openFirst w settings []) as [[v|msg] tr]; [|exact Ho].
  destruct Ho as [H1 _].
  pose proof (forRange_inv (writeBatch w settings) (paths w settings 1) records
                (fun v0 b => writeBatch_no_rotation 1 v0 b Hn) v tr H1) as Hl.
  destruct (forRange _ records v tr) as [[v1|msg] tr1];
    [|exists 1%nat; split; [lia|exact Hl]].
  pose proof (shutdown_paths w settings 1 v1 tr1 Hl) as Hs.
  destruct (shutdown w settings v1 tr1) as [[[]|msg] tr2];
    [exact Hs|exists 1%nat; split; [lia|exact Hs]].
Qed.

Lemma writeBatch_rotates n v b :
  (forall tr p q, isFileSizeExceeded w tr p q = true) ->
  (Z.of_nat n + 1 < 2 ^ 63)%Z -> serial v = Z.of_nat n ->
  hoare (paths w settings n) (writeBatch w settings v b)
        (fun v' tr => paths w settings (S n) tr /\ serial v' = Z.of_nat (S n))
        (fun _ => True).
Proof.
  intros Ha Hb Hv tr H. unfold writeBatch. unfold bind at 1, get. rewrite Ha.
  unfold bind at 1.
  pose proof (rotate_paths w settings n v Hb Hv tr H) as Hr.
  destruct (rotate w settings v tr) as [[v1|msg] tr1]; [|exact I].
  destruct Hr as [H1 Hv1]. unfold bind at 1.
  pose proof (writeRecords_paths w settings (S n) (CaptureTime b) (Records b) v1 tr1 H1)
    as Hw.
  destruct (forRange _ (Records b) v1 tr1) as [[v2|msg] tr2]; [|exact I].
  destruct Hw as [H2 Hv2]. unfold bind, perform, ret.
  split; [apply paths_other; [reflexivity|exact H2]|simpl; congruence].
Qed.

Lemma writeBatches_rotate bs : forall n v,
  (forall tr p q, isFileSizeExceeded w tr p q = true) ->
  (Z.of_nat n + Z.of_nat (length bs) < 2 ^ 63)%Z -> serial v = Z.of_nat n ->
  hoare (paths w settings n) (forRange (writeBatch w settings) bs v)
        (fun v' tr => paths w settings (n + length bs) tr) (fun _ => True).
Proof.
  induction bs as [|b bs IH]; intros n v Ha Hb Hv; simpl.
  - apply hoare_ret. intros tr H. rewrite Nat.add_0_r. exact H.
  - simpl length in Hb. intros tr H.
    pose proof (writeBatch_rotates n v b Ha ltac:(lia) Hv tr H) as H1.
    unfold bind. destruct (writeBatch w settings v b tr) as [[v1|msg] tr1]; [|exact I].
    destruct H1 as [H1 Hv1].
    pose proof (IH (S n) v1 Ha ltac:(lia) Hv1 tr1 H1) as H2.
    destruct (forRange _ bs v1 tr1) as [[v2|msg] tr2]; [|exact I].
    replace (n + S (length bs))%nat with (S n + length bs)%nat by lia. exact H2.
Qed.

Lemma recordWriter_rotates records :
  (forall tr p q, isFileSizeExceeded w tr p q = true) ->
  (Z.of_nat (length records) < 2 ^ 63 - 1)%Z ->
  returned (fst (recordWriter w settings records [])) = true ->
  paths w settings (1 + length records) (snd (recordWriter w settings records [])).
Proof.
  intros Ha Hb. unfold recordWriter, bind.
  pose proof (openFirst_paths w settings [] eq_refl) as Ho.
  destruct (openFirst w settings []) as [[v|msg] tr]; [|discriminate].
  destruct Ho as [H1 Hv].
  pose proof (writeBatches_rotate records 1 v Ha ltac:(lia) Hv tr H1) as Hl.
  destruct (forRange _ records v tr) as [[v1|msg] tr1]; [|discriminate].
  pose proof (shutdown_paths w settings _ v1 tr1 Hl) as Hs.
  destruct (shutdown w settings v1 tr1) as [[[]|msg] tr2]; [|discriminate].
  intros _. exact Hs.
Qed.
Lemma grouping_snoc tr e : grouping (tr ++ [e]) = groupStep (grouping tr) e.
Proof. unfold grouping. rewrite fold_left_app. reflexivity. Qed.

Ltac grouped_tac H :=
  unfold grouped in *; repeat rewrite grouping_snoc; rewrite H; simpl;
  rewrite ?map_app; simpl; rewrite <- ?app_assoc; reflexivity.

Lemma openFirst_grouped :
  hoare (fun tr => tr = []) (openFirst w settings)
        (fun v tr => grouped (currentWarcinfoRecordID v) [] [] tr) (fun _ => True).
Proof.
  intros tr ->. unfold_block; simpl; split_comp; split_fails;
    first [ exact I | reflexivity ].
Qed.

Lemma rotate_grouped id gs cur v :
  hoare (grouped id gs (stamped id cur)) (rotate w settings v)
        (fun v' tr => grouped id (gs ++ [cur]) [] tr /\
                      currentWarcinfoRecordID v' = currentWarcinfoRecordID v)
        (fun _ => True).
Proof.
  intros tr H. unfold_block; simpl. split_comp; split_fails;
    first [ exact I | split; [grouped_tac H|reflexivity] ].
Qed.

Lemma writeOne_grouped id gs cur t v r :
  currentWarcinfoRecordID v = id ->
  hoare (grouped id gs cur) (writeOne w settings t v r)
        (fun v' tr => grouped id gs (cur ++ [stamp t id r]) tr /\
                      currentWarcinfoRecordID v' = id)
        (fun _ => True).
Proof.
  intros Hv tr H. unfold_block; simpl. rewrite Hv. split_comp; split_fails;
    first [ exact I | split; [grouped_tac H|reflexivity] ].
Qed.

Lemma writeRecords_grouped id gs t rs : forall cur v,
  currentWarcinfoRecordID v = id ->
  hoare (grouped id gs cur) (forRange (writeOne w settings t) rs v)
        (fun v' tr => grouped id gs (cur ++ map (stamp t id) rs) tr /\
                      currentWarcinfoRecordID v' = id)
        (fun _ => True).
Proof.
  induction rs as [|r rs IH]; intros cur v Hv; simpl.
  - apply hoare_ret. intros tr H. rewrite app_nil_r. auto.
  - intros tr H. pose proof (writeOne_grouped id gs cur t v r Hv tr H) as H1.
    unfold bind. destruct (writeOne w settings t v r tr) as [[v1|msg] tr1]; [|exact I].
    destruct H1 as [H1 Hv1]. specialize (IH (cur ++ [stamp t id r]) v1 Hv1 tr1 H1).
    destruct (forRange _ rs v1 tr1) as [[v2|msg] tr2]; [|exact I].
    rewrite <- app_assoc in IH. exact IH.
Qed.

(** At the head of the loop: the files left behind hold the batches of
    [gs], the current file those of [cur], and together they are the
    batches received so far. *)
Lemma writeBatch_grouped id gs cur v b :
  currentWarcinfoRecordID v = id ->
  hoare (grouped id gs (stamped id cur)) (writeBatch w settings v b)
        (fun v' tr => exists gs' cur',
           grouped id gs' (stamped id cur') tr /\
           concat gs' ++ cur' = (concat gs ++ cur) ++ [b] /\
           currentWarcinfoRecordID v' = id)
        (fun _ => True).
Proof.
  intros Hv tr H. unfold writeBatch. unfold bind at 1, get. unfold bind at 1.
  assert (Hstart : forall gs0 cur0 v1 tr1,
    grouped id gs0 (stamped id cur0) tr1 -> currentWarcinfoRecordID v1 = id ->
    match bind (forRange (writeOne w settings (CaptureTime b)) (Records b) v1)
               (fun v2 => bind (perform (Flush (warcWriter v2))) (fun _ => ret v2)) tr1 with
    | (Ret v', tr') => grouped id gs0 (stamped id (cur0 ++ [b])) tr' /\
                       currentWarcinfoRecordID v' = id
    | (Panic _, _) => True
    end).
  { intros gs0 cur0 v1 tr1 H1 Hv1. unfold bind at 1.
    pose proof (writeRecords_grouped id gs0 (CaptureTime b) (Records b) _ v1 Hv1 tr1 H1)
      as Hw.
    destruct (forRange _ (Records b) v1 tr1) as [[v2|msg] tr2]; [|exact I].
    destruct Hw as [H2 Hv2]. unfold bind, perform, ret. split; [|exact Hv2].
    unfold grouped in *. rewrite grouping_snoc, H2. simpl.
    rewrite stamped_app. unfold stamped at 3. simpl. rewrite app_nil_r. reflexivity. }
  destruct (isFileSizeExceeded w tr _ _).
  - pose proof (rotate_grouped id gs cur v tr H) as Hr.
    destruct (rotate w settings v tr) as [[v1|msg] tr1]; [|exact I].
    destruct Hr as [H1 Hv1].
    specialize (Hstart (gs ++ [cur]) [] v1 tr1 H1 ltac:(congruence)).
    destruct (bind _ _ tr1) as [[v'|msg] tr']; [|exact I].
    destruct Hstart as [H2 Hv2]. exists (gs ++ [cur]), [b].
    split; [exact H2|]. split; [|exact Hv2].
    rewrite concat_app. simpl. rewrite app_nil_r. reflexivity.
  - unfold ret at 1. specialize (Hstart gs cur v tr H Hv).
    destruct (bind _ _ tr) as [[v'|msg] tr']; [|exact I].
    destruct Hstart as [H2 Hv2]. exists gs, (cur ++ [b]).
    split; [exact H2|]. split; [|exact Hv2]. rewrite app_assoc. reflexivity.
Qed.

Lemma writeBatches_grouped id bs : forall gs cur v,
  currentWarcinfoRecordID v = id ->
  hoare (grouped id gs (stamped id cur)) (forRange (writeBatch w settings) bs v)
        (fun v' tr => exists gs' cur',
           grouped id gs' (stamped id cur') tr /\
           concat gs' ++ cur' = (concat gs ++ cur) ++ bs)
        (fun _ => True).
Proof.
  induction bs as [|b bs IH]; intros gs cur v Hv; simpl.
  - apply hoare_ret. intros tr H. exists gs, cur. rewrite app_nil_r. auto.
  - intros tr H. pose proof (writeBatch_grouped id gs cur v b Hv tr H) as H1.
    unfold bind. destruct (writeBatch w settings v b tr) as [[v1|msg] tr1]; [|exact I].
    destruct H1 as (gs1 & cur1 & H1 & Hc & Hv1).
    specialize (IH gs1 cur1 v1 Hv1 tr1 H1).
    destruct (forRange _ bs v1 tr1) as [[v2|msg] tr2]; [|exact I].
    destruct IH as (gs2 & cur2 & H2 & Hc2). exists gs2, cur2.
    split; [exact H2|]. rewrite Hc2, Hc, <- app_assoc. reflexivity.
Qed.

Lemma shutdown_grouping v tr :
  returned (fst (shutdown w settings v tr)) = true ->
  grouping (snd (shutdown w settings v tr)) = grouping tr.
Proof.
  rewrite shutdown_run. cbv zeta. destruct (fails w _ _); [discriminate|].
  intros _. simpl. rewrite !grouping_snoc. simpl.
  unfold grouping. rewrite !fold_left_app. simpl.
  unfold closeEventsOf.
  destruct (String.eqb (Compression settings) "GZIP"); [reflexivity|].
  destruct (String.eqb (Compression settings) "ZSTD"); reflexivity.
Qed.

Lemma recordWriter_grouped records :
  returned (fst (recordWriter w settings records [])) = true ->
  exists id groups,
    concat groups = records /\
    recordsByFile (snd (recordWriter w settings records [])) = map (stamped id) groups.
Proof.
  unfold recordWriter, bind.
  pose proof (openFirst_grouped [] eq_refl) as Ho.
  destruct (openFirst w settings []) as [[v|msg] tr]; [|discriminate].
  pose proof (writeBatches_grouped (currentWarcinfoRecordID v) records [] [] v eq_refl
                tr Ho) as Hl.
  destruct (forRange _ records v tr) as [[v1|msg] tr1]; [|discriminate].
  destruct Hl as (gs & cur & Hg & Hc). intros Hret.
  pose proof (shutdown_grouping v1 tr1) as Hs.
  destruct (shutdown w settings v1 tr1) as [[[]|msg] tr2]; [|discriminate].
  simpl in *. specialize (Hs eq_refl).
  exists (currentWarcinfoRecordID v), (gs ++ [cur]). split.
  - rewrite concat_app. simpl. rewrite app_nil_r. exact Hc.
  - unfold recordsByFile. rewrite Hs. unfold grouped in Hg. rewrite Hg. simpl.
    rewrite map_app. reflexivity.
Qed.
End MoreRun.
Lemma Forall2_stamped id bs : Forall2 sameButStamps (allRecords bs) (stamped id bs).
Proof.
  unfold allRecords, stamped. induction bs as [|b bs IH]; simpl; [constructor|].
  apply Forall2_app; [|exact IH].
  induction (Records b) as [|r rs IHr]; simpl; constructor; [|exact IHr].
  split; [reflexivity|]. intros key Hk. apply namesOneOf_false in Hk. simpl in Hk.
  unfold fieldOf, stamp, SetHeader, Header_Set, Header_Get. simpl.
  rewrite !lookup_insert_ne by (intros E; tauto). reflexivity.
Qed.

(** X13. [recordWriter] hands the records of the batches to the writer in
    the order of arrival, each once, its content untouched and every field
    of its header as it was, but for the two stamped fields, [WARC-Date] and
    [WARC-Warcinfo-ID], in whatever spelling; a run that returns has written
    them all, a run that panics a first part of them. *)
Theorem records_are_written_in_order (w : World) (settings : RotatorSettings)
    (records : list RecordBatch) :
  Forall2 sameButStamps
          (take (length (writtenRecords (snd (recordWriter w settings records []))))
                (allRecords records))
          (writtenRecords (snd (recordWriter w settings records []))) /\
  (length (writtenRecords (snd (recordWriter w settings records [])))
   <= length (allRecords records))%nat /\
  (returned (fst (recordWriter w settings records [])) = true ->
   length (writtenRecords (snd (recordWriter w settings records [])))
   = length (allRecords records)).
Proof.
  destruct (recordWriter_wrote w settings records) as (id & _ & [t Ht] & Hr).
  pose proof (Forall2_stamped id records) as HF.
  pose proof (Forall2_length _ _ _ HF) as Hlen.
  set (wr := writtenRecords (snd (recordWriter w settings records []))) in *.
  assert (Hle : (length wr <= length (allRecords records))%nat).
  { rewrite Hlen, Ht, length_app. lia. }
  split; [|split; [exact Hle|]].
  - apply (Forall2_take _ _ _ (length wr)) in HF.
    rewrite Ht, take_app_length in HF. exact HF.
  - intros Hret. rewrite (Hr Hret). symmetry. exact Hlen.
Qed.

(** X14. In every run the files live one after the other: a file is created
    only when no file is open, its info record is the first record written
    to it and its only info record, every record goes through the writer
    created last over the file created last, and nothing is written to a
    file once it is closed; when the run returns the last file is closed. *)
Theorem files_are_laid_out_in_turn (w : World) (settings : RotatorSettings)
    (records : list RecordBatch) :
  soundLayout (snd (recordWriter w settings records [])) /\
  (returned (fst (recordWriter w settings records [])) = true ->
   exists f, laidOut f Closed (snd (recordWriter w settings records []))).
Proof.
  pose proof (recordWriter_layout w settings records) as H.
  destruct (recordWriter w settings records []) as [[[]|msg] tr]; simpl.
  - split; [|intros _; exact H]. destruct H as (f & lw & H).
    unfold soundLayout. rewrite H. eexists; reflexivity.
  - split; [exact H|discriminate].
Qed.

Lemma string_length_append (s t : string) :
  String.length (s ++ t) = (String.length s + String.length t)%nat.
Proof. induction s as [|a s IH]; simpl; [reflexivity|]. rewrite IH. reflexivity. Qed.

Lemma substring_whole (t : string) : substring 0 (String.length t) t = t.
Proof. induction t as [|a t IH]; simpl; [reflexivity|]. rewrite IH. reflexivity. Qed.

Lemma substring_append_left (s t : string) :
  substring 0 (String.length s) (s ++ t) = s.
Proof.
  induction s as [|a s IH]; simpl; [destruct t; reflexivity|].
  rewrite IH. reflexivity.
Qed.

Lemma substring_append_right (s t : string) :
  substring (String.length s) (String.length t) (s ++ t) = t.
Proof. induction s as [|a s IH]; simpl; [apply substring_whole|exact IH]. Qed.

Lemma TrimSuffix_append (s suffix : string) : TrimSuffix (s ++ suffix) suffix = s.
Proof.
  unfold TrimSuffix, HasSuffix. rewrite string_length_append.
  replace (String.length s + String.length suffix - String.length suffix)%nat
    with (String.length s) by lia.
  rewrite substring_append_right, String.eqb_refl, substring_append_left.
  replace (String.length suffix <=? String.length s + String.length suffix)%nat
    with true by (symmetry; apply Nat.leb_le; lia).
  reflexivity.
Qed.

(** X15. A run that returns has renamed every file it created, each once
    and in the order of creation, to its path with the suffix [.open]
    trimmed, which for a path ending in [.open] is the path without it; a
    run that panics has done so for all the files but at most the last. *)
Theorem created_files_are_published (w : World) (settings : RotatorSettings)
    (records : list RecordBatch) :
  nearlySealed (snd (recordWriter w settings records [])) /\
  (returned (fst (recordWriter w settings records [])) = true ->
   sealedAll (snd (recordWriter w settings records []))) /\
  (forall p, publishedAs (p ++ ".open") = ((p ++ ".open")%string, p)).
Proof.
  pose proof (recordWriter_sealed w settings records) as H.
  split; [|split].
  - destruct (recordWriter w settings records []) as [[[]|msg] tr]; simpl;
      [apply sealedAll_nearly|]; exact H.
  - destruct (recordWriter w settings records []) as [[[]|msg] tr]; simpl;
      [intros _; exact H|discriminate].
  - intros p. unfold publishedAs. rewrite TrimSuffix_append. reflexivity.
Qed.

(** X16. A run that returns ends with the calls of the shutdown, in this
    order: the flush of the writer, the close of its compression stream if
    there is one, the close of the file, and last the rename of the file
    created last, which until then was the one file not yet published. *)
Theorem shutdown_flushes_before_rename (w : World) (settings : RotatorSettings)
    (records : list RecordBatch) :
  returned (fst (recordWriter w settings records [])) = true ->
  exists tr0 v,
    sealedBut (curPath settings v) tr0 /\
    snd (recordWriter w settings records [])
    = tr0 ++ [Flush (warcWriter v)] ++ closeEventsOf settings (warcWriter v)
          ++ [FileClose (warcFile v);
              OsRename (curPath settings v)
                       (TrimSuffix (curPath settings v) ".open")].
Proof. apply recordWriter_ends_in_shutdown. Qed.

Lemma sample_run_returns :
  returned (fst (recordWriter sampleWorld (sampleSettings "GZIP") [batch1; batch2] []))
  = true.
Proof. vm_compute. reflexivity. Defined.

Lemma shutdown_flushes_before_rename_witness :
  returned (fst (recordWriter sampleWorld (sampleSettings "GZIP") [batch1; batch2] []))
  = true /\
  exists tr0 v,
    sealedBut (curPath (sampleSettings "GZIP") v) tr0 /\
    snd (recordWriter sampleWorld (sampleSettings "GZIP") [batch1; batch2] [])
    = tr0 ++ [Flush (warcWriter v)]
          ++ closeEventsOf (sampleSettings "GZIP") (warcWriter v)
          ++ [FileClose (warcFile v);
              OsRename (curPath (sampleSettings "GZIP") v)
                       (TrimSuffix (curPath (sampleSettings "GZIP") v) ".open")].
Proof.
  split; [exact sample_run_returns|].
  apply (shutdown_flushes_before_rename sampleWorld (sampleSettings "GZIP")
           [batch1; batch2] sample_run_returns).
Defined.

(** X17. The close calls of a run are those of the configured compression:
    only gzip closes with GZIP, only zstd closes with ZSTD, and none at
    all with no compression or with any other setting. *)
Theorem closes_match_the_compression (w : World) (settings : RotatorSettings)
    (records : list RecordBatch) :
  Forall (closeMatches settings) (snd (recordWriter w settings records [])).
Proof. apply recordWriter_closes. Qed.

(** X18. When the size check never answers that the file is full, a run
    creates no file but the first: a run that returns has created exactly
    the file of serial 1 and published it, once. *)
Theorem no_rotation_without_full_file (w : World) (settings : RotatorSettings)
    (records : list RecordBatch) :
  (forall tr p q, isFileSizeExceeded w tr p q = false) ->
  (createdPaths (snd (recordWriter w settings records [])) = [] \/
   createdPaths (snd (recordWriter w settings records [])) = [path w settings 1]) /\
  (returned (fst (recordWriter w settings records [])) = true ->
   createdPaths (snd (recordWriter w settings records [])) = [path w settings 1] /\
   renames (snd (recordWriter w settings records []))
   = [publishedAs (path w settings 1)]).
Proof.
  intros Hn. pose proof (recordWriter_no_rotation w settings records Hn) as H.
  pose proof (recordWriter_sealed w settings records) as Hs.
  destruct (recordWriter w settings records []) as [[[]|msg] tr]; simpl.
  - split; [right; exact H|]. intros _. split; [exact H|].
    unfold sealedAll in Hs. rewrite Hs, H. reflexivity.
  - split; [|discriminate]. destruct H as (n & Hle & H).
    destruct n as [|[|n]]; [left; exact H|right; exact H|lia].
Qed.

Lemma no_rotation_without_full_file_witness :
  (forall tr p q, isFileSizeExceeded neverFull tr p q = false) /\
  createdPaths (snd (recordWriter neverFull (sampleSettings "") [batch1; batch2] []))
  = [path neverFull (sampleSettings "") 1] /\
  renames (snd (recordWriter neverFull (sampleSettings "") [batch1; batch2] []))
  = [publishedAs (path neverFull (sampleSettings "") 1)].
Proof.
  split; [intros; reflexivity|].
  apply (proj2 (no_rotation_without_full_file neverFull (sampleSettings "")
                  [batch1; batch2] (fun _ _ _ => eq_refl))).
  vm_compute. reflexivity.
Defined.

(** X19. When the size check always answers that the file is full, every
    batch, an empty one too, opens a file of its own: a run that returns
    on fewer than 2^63 - 1 batches has created the files of the serials 1
    to one more than the number of batches. *)
Theorem full_file_rotates_every_batch (w : World) (settings : RotatorSettings)
    (records : list RecordBatch) :
  (forall tr p q, isFileSizeExceeded w tr p q = true) ->
  (Z.of_nat (length records) < 2 ^ 63 - 1)%Z ->
  returned (fst (recordWriter w settings records [])) = true ->
  createdPaths (snd (recordWriter w settings records []))
  = map (path w settings) (seq 1 (1 + length records)).
Proof. intros Ha Hb Hr. exact (recordWriter_rotates w settings records Ha Hb Hr). Qed.

Lemma full_file_rotates_every_batch_witness :
  (forall tr p q, isFileSizeExceeded alwaysFull tr p q = true) /\
  createdPaths (snd (recordWriter alwaysFull (sampleSettings "")
                                  [batch1; mkBatch [] "t"; batch2] []))
  = map (path alwaysFull (sampleSettings "")) (seq 1 (1 + 3)).
Proof.
  split; [intros; reflexivity|].
  apply (full_file_rotates_every_batch alwaysFull (sampleSettings "")
           [batch1; mkBatch [] "t"; batch2] (fun _ _ _ => eq_refl)).
  - reflexivity.
  - vm_compute. reflexivity.
Defined.

Lemma parsed_fields_are_copied_witness :
  exists r',
    headersFromRawData sampleWorld sampleRecord sampleDump = Ret r' /\
    exists pos line rest mimeHeader,
      headerEnd sampleDump = Ret pos /\
      ReadLine (take pos sampleDump) = inr (line, rest) /\
      ReadMIMEHeader sampleWorld rest = inr mimeHeader /\
      Content r' = Content sampleRecord /\
      (forall key, namesOneOf (map fst mimeHeader) key = false ->
                   fieldOf key r' = fieldOf key sampleRecord) /\
      (List.NoDup (map lowerName (map fst mimeHeader)) ->
       forall key v, In (key, v) mimeHeader -> fieldOf key r' = Join v ",").
Proof.
  eexists. split; [vm_compute; reflexivity|].
  apply (parsed_fields_are_copied sampleWorld sampleRecord _ sampleDump).
  vm_compute. reflexivity.
Defined.

Lemma callback_records_metadata_witness :
  exists batch,
    rawResponseCallback sampleWorld "2021-01-01T00:00:01Z" sampleRequest
                        sampleResponse sampleDump sampleDump = Ret batch /\
    exists r1 r2, Records batch = [r1; r2] /\
                  fieldOf "WARC-Target-URI" r1 = URL_String sampleRequest /\
                  fieldOf "Host" r2 = URL_Host sampleRequest.
Proof.
  eexists. split; [vm_compute; reflexivity|].
  destruct (callback_records_metadata sampleWorld "2021-01-01T00:00:01Z"
              sampleRequest sampleResponse sampleDump sampleDump _
              ltac:(vm_compute; reflexivity))
    as (h1 & h2 & r1 & r2 & _ & _ & Hr & (_ & Ht & _) & (_ & _ & Hh & _)).
  exists r1, r2. split; [exact Hr|]. split; [exact Ht|exact Hh].
Defined.
Lemma failed_dump_returns_empty_batch_witness :
  exists batch,
    RecordsFromHTTPResponse brokenRequestDump "2021-01-01T00:00:01Z" sampleResponse
    = Ret (batch, Some "http: ContentLength with Body length 0") /\
    Records batch = [] /\ CaptureTime batch = "2021-01-01T00:00:01Z" /\
    (DumpResponse brokenRequestDump sampleResponse
     = inl "http: ContentLength with Body length 0" \/
     exists request, Request_ sampleResponse = Some request /\
                     DumpRequestOut brokenRequestDump request
                     = inl "http: ContentLength with Body length 0").
Proof.
  eexists. split; [vm_compute; reflexivity|].
  apply (failed_dump_returns_empty_batch brokenRequestDump "2021-01-01T00:00:01Z"
           sampleResponse).
  vm_compute. reflexivity.
Defined.

Lemma dumped_records_metadata_witness :
  exists batch,
    RecordsFromHTTPResponse sampleWorld "2021-01-01T00:00:01Z" sampleResponse
    = Ret (batch, None) /\
    exists request r1 r2,
      Request_ sampleResponse = Some request /\
      Records batch = [r1; r2] /\
      DumpResponse sampleWorld sampleResponse = inr (Content r1) /\
      DumpRequestOut sampleWorld request = inr (Content r2) /\
      fieldOf "WARC-Payload-Digest" r1
      = ("sha1:" ++ GetSHA1 sampleWorld (Content r1))%string /\
      fieldOf "WARC-Payload-Digest" r2
      = ("sha1:" ++ GetSHA1 sampleWorld (Content r2))%string /\
      fieldOf "WARC-Target-URI" r1 = URL_String request /\
      fieldOf "WARC-Target-URI" r2 = URL_String request /\
      fieldOf "Host" r2 = URL_Host request /\
      fieldOf "Content-Type" r1 = "application/http; msgtype=response" /\
      fieldOf "Content-Type" r2 = "application/http; msgtype=request".
Proof.
  eexists. split; [vm_compute; reflexivity|].
  apply (dumped_records_metadata sampleWorld "2021-01-01T00:00:01Z" sampleResponse).
  vm_compute. reflexivity.
Defined.
(** X20. A batch is never split across files: in a run that returns, the
    records of the batches lie in the files, file by file in the order of
    creation, as whole batches in the order of arrival, each record stamped;
    a file may hold no batch at all. *)
Theorem batches_are_not_split_across_files (w : World) (settings : RotatorSettings)
    (records : list RecordBatch) :
  returned (fst (recordWriter w settings records [])) = true ->
  exists id groups,
    concat groups = records /\
    recordsByFile (snd (recordWriter w settings records [])) = map (stamped id) groups.
Proof. apply recordWriter_grouped. Qed.

Lemma batches_are_not_split_across_files_witness :
  returned (fst (recordWriter sampleWorld (sampleSettings "GZIP") [batch1; batch2] []))
  = true /\
  exists id groups,
    concat groups = [batch1; batch2] /\
    recordsByFile (snd (recordWriter sampleWorld (sampleSettings "GZIP")
                                     [batch1; batch2] []))
    = map (stamped id) groups.
Proof.
  split; [exact sample_run_returns|].
  apply (batches_are_not_split_across_files sampleWorld (sampleSettings "GZIP")
           [batch1; batch2] sample_run_returns).
Defined.

End RecorderMore.
